(** * N-gram trainer: the counting-and-merging pipeline of [main_trainer.py]

    A shallow embedding of the orchestration script.  A Python [dict] is
    a finite map ([gmap]), whose equality is content equality: two maps
    with the same entries are equal, whatever the order in which they
    were filled.  Python integers are [Z], Python strings are lists of
    code points, exceptions are values of an error type, and the file
    system and the local variables of [main] are passed explicitly. *)

From Stdlib Require Import ZArith NArith List Lia Ascii String.
From stdpp Require Import base option list gmap fin_maps strings pretty.
From Equations Require Import Equations.

(** ** Exceptions *)

Inductive exn : Type :=
| IndexError
| UnboundLocalError (name : string)
| TypeError (msg : string)
| FileNotFoundError
| SystemExit (code : Z)
| Exception (msg : string).

Inductive result (A : Type) : Type :=
| Ok (a : A)
| Raise (e : exn).
Arguments Ok {A} a.
Arguments Raise {A} e.

Definition result_bind {A B} (f : A → result B) (r : result A) : result B :=
  match r with
  | Ok a => f a
  | Raise e => Raise e
  end.

#[global] Instance result_ret : MRet result := λ A a, Ok a.
#[global] Instance result_mbind : MBind result := λ A B f r, result_bind f r.

(** ** Frequency tables *)

(** The inner dictionary of a table: next-id to count. *)
Abbreviation NextCounts := (gmap nat Z).

(** [chain_frequency]: context (a tuple of ids) to [NextCounts]. *)
Abbreviation FrequencyTable := (gmap (list nat) (gmap nat Z)).

(** An [ngram.Ngram] object as this script sees it: the constructor
    argument ([None] when the script calls [ngram.Ngram()] without one)
    and the attribute [chain_frequency], the only one the script reads
    or writes. *)
Record Ngram := mkNgram {
  order : option Z;
  chain_frequency : FrequencyTable
}.

(** [ngram.Ngram(n)] and [ngram.Ngram()]: a freshly constructed object
    holds an empty table. *)
Definition Ngram_new (n : option Z) : Ngram :=
  {| order := n; chain_frequency := ∅ |}.

(** The count of a (context, next) pair, 0 for an absent entry. *)
Definition count (t : FrequencyTable) (key : list nat) (sub_key : nat) : Z :=
  default 0%Z (t !! key ≫= (.!! sub_key)).

(** The pair (context, next) is an entry of the table. *)
Definition has_entry (t : FrequencyTable) (key : list nat) (sub_key : nat) : Prop :=
  is_Some (t !! key ≫= (.!! sub_key)).

(** ** [merge_grams] *)

(** The body of the inner loop,
    [for sub_key, sub_value in value.items()], on the inner dictionary
    [d = gram1.chain_frequency[key]]. *)
Definition merge_sub_step (sub_key : nat) (sub_value : Z) (d : NextCounts) : NextCounts :=
  match d !! sub_key with
  | None => <[sub_key := sub_value]> d
  | Some c => <[sub_key := (c + sub_value)%Z]> d
  end.

Definition merge_sub (d value : NextCounts) : NextCounts :=
  map_fold merge_sub_step d value.

(** The body of the outer loop,
    [for key, value in gram2.chain_frequency.items()], on
    [cf = gram1.chain_frequency]. *)
Definition merge_step (key : list nat) (value : NextCounts)
    (cf : FrequencyTable) : FrequencyTable :=
  match cf !! key with
  | None => <[key := value]> cf
  | Some d => <[key := merge_sub d value]> cf
  end.

(** [merge_grams(gram1, gram2)] updates [gram1.chain_frequency] and
    returns [gram1]; in state-passing form the updated [gram1] is the
    result, and a table named in a statement is its contents before the
    call.  The module [InPlace] below runs the same loops on the objects
    themselves. *)
Definition merge_grams (gram1 gram2 : Ngram) : Ngram :=
  {| order := order gram1;
     chain_frequency :=
       map_fold merge_step (chain_frequency gram1) (chain_frequency gram2) |}.

(** The operator of the specification, to compare [merge_grams] with:
    map union with sum, at both levels of nesting. *)
Definition sum_counts (d1 d2 : NextCounts) : NextCounts :=
  union_with (λ c1 c2, Some (c1 + c2)%Z) d1 d2.

Definition merge (a b : FrequencyTable) : FrequencyTable :=
  union_with (λ d1 d2, Some (sum_counts d1 d2)) a b.

(** ** [merge_models_incrementally] *)

(** [range(0, stop, 2)]. *)
Definition range_by_2 (stop : nat) : list nat :=
  (λ j, 2 * j) <$> seq 0 (Nat.div2 (S stop)).

(** [models_to_merge[i]]: an index out of range raises. *)
Definition getitem {A} (l : list A) (i : nat) : result A :=
  match l !! i with
  | Some x => Ok x
  | None => Raise IndexError
  end.

(** The body of [for i in range(0, len(models_to_merge), 2)], on the
    list [new_models] built so far. *)
Definition pair_step (models_to_merge : list Ngram) (new_models : list Ngram) (i : nat)
    : result (list Ngram) :=
  if decide (i + 1 < length models_to_merge) then
    model1 ← getitem models_to_merge i;
    model2 ← getitem models_to_merge (i + 1);
    let merged_model := merge_grams model1 model2 in
    Ok (new_models ++ [merged_model])
  else
    model ← getitem models_to_merge i;
    Ok (new_models ++ [model]).

(** One round of the [while] loop: the [for] loop from an empty
    [new_models]. *)
Definition pair_round (models_to_merge : list Ngram) : result (list Ngram) :=
  foldl (λ acc i, new_models ← acc; pair_step models_to_merge new_models i)
        (Ok []) (range_by_2 (length models_to_merge)).

(** The same round by recursion on the list, two tables at a time. *)
Fixpoint pairs (models : list Ngram) : list Ngram :=
  match models with
  | model1 :: model2 :: rest => merge_grams model1 model2 :: pairs rest
  | _ => models
  end.

(** The index loop of a round visits the list two tables at a time. *)
Lemma pairs_ind (P : list Ngram → Prop) :
  P [] → (∀ model, P [model]) →
  (∀ model1 model2 rest, P rest → P (model1 :: model2 :: rest)) →
  ∀ models, P models.
Proof.
  intros Hnil Hone Hstep.
  fix IH 1. intros [|model1 [|model2 rest]].
  - exact Hnil.
  - apply Hone.
  - apply Hstep, IH.
Qed.

Lemma pair_step_pair (pre rest acc : list Ngram) (model1 model2 : Ngram) :
  pair_step (pre ++ model1 :: model2 :: rest) acc (length pre)
  = Ok (acc ++ [merge_grams model1 model2]).
Proof.
  unfold pair_step, getitem. rewrite length_app. cbn [length].
  destruct (decide _) as [_|Hge]; [|lia].
  rewrite !lookup_app_r by lia.
  replace (length pre - length pre) with 0 by lia.
  by replace (length pre + 1 - length pre) with 1 by lia.
Qed.

Lemma pair_step_last (pre acc : list Ngram) (model : Ngram) :
  pair_step (pre ++ [model]) acc (length pre) = Ok (acc ++ [model]).
Proof.
  unfold pair_step, getitem. rewrite length_app. cbn [length].
  destruct (decide _) as [Hlt|_]; [lia|].
  rewrite lookup_app_r by lia.
  by replace (length pre - length pre) with 0 by lia.
Qed.

Lemma pair_round_from (rest pre acc : list Ngram) (k : nat) :
  length pre = 2 * k →
  foldl (λ acc i, new_models ← acc; pair_step (pre ++ rest) new_models i)
        (Ok acc) ((λ j, 2 * j) <$> seq k (Nat.div2 (S (length rest))))
  = Ok (acc ++ pairs rest).
Proof.
  revert pre acc k.
  induction rest as [|model|model1 model2 rest IH] using pairs_ind;
    intros pre acc k Hpre.
  - cbn [length Nat.div2 seq fmap list_fmap foldl pairs]. by rewrite app_nil_r.
  - cbn [length Nat.div2 seq fmap list_fmap foldl pairs]. rewrite <- Hpre.
    apply pair_step_last.
  - change (Nat.div2 (S (length (model1 :: model2 :: rest))))
      with (S (Nat.div2 (S (length rest)))).
    rewrite <- cons_seq, fmap_cons. cbn [foldl pairs]. rewrite <- Hpre.
    change (Ok acc ≫= ?f) with (f acc). cbv beta.
    rewrite pair_step_pair.
    replace (pre ++ model1 :: model2 :: rest)
      with ((pre ++ [model1; model2]) ++ rest) by by rewrite <- app_assoc.
    rewrite (IH (pre ++ [model1; model2]) _ (S k)).
    + by rewrite <- app_assoc.
    + rewrite length_app. cbn [length]. lia.
Qed.

Lemma pair_round_pairs (models : list Ngram) :
  pair_round models = Ok (pairs models).
Proof. apply (pair_round_from models [] [] 0). reflexivity. Qed.

Lemma pairs_length (models : list Ngram) :
  1 < length models → length (pairs models) < length models.
Proof.
  induction models as [|model|model1 model2 rest IH] using pairs_ind;
    simpl; intros Hlen; [lia..|].
  destruct rest as [|model3 [|model4 rest]]; simpl in *; lia.
Qed.

Definition inspect {A} (a : A) : {b : A | a = b} := exist _ a eq_refl.

(** The function itself: rounds while more than one table is left, then
    [models_to_merge[0]], which raises on an empty list. *)
Equations? merge_models_incrementally (models_to_merge : list Ngram) : result Ngram
    by wf (length models_to_merge) lt :=
  merge_models_incrementally models_to_merge with inspect (bool_decide (1 < length models_to_merge)) := {
    | exist _ true Hlen with inspect (pair_round models_to_merge) := {
        | exist _ (Ok new_models) Hround := merge_models_incrementally new_models;
        | exist _ (Raise e) _ := Raise e };
    | exist _ false _ := getitem models_to_merge 0 }.
Proof.
  apply bool_decide_eq_true_1 in Hlen.
  rewrite pair_round_pairs in Hround. injection Hround as <-.
  by apply pairs_length.
Qed.

(** ** Strings and [preprocessing] *)

(** A Python [str]: the list of its code points. *)
Abbreviation pystr := (list N).

(** A literal of ASCII characters. *)
Definition lit (s : string) : pystr :=
  N_of_ascii <$> list_ascii_of_string s.

(** The code points [str.isspace], [str.strip()] and [str.split()] take
    for whitespace. *)
Definition isspace (c : N) : bool :=
  ((9 <=? c) && (c <=? 13)            (* \t \n \v \f \r *)
   || (28 <=? c) && (c <=? 32)        (* FS GS RS US and the space *)
   || (c =? 133) || (c =? 160)        (* NEL, no-break space *)
   || (c =? 5760)                     (* U+1680 *)
   || (8192 <=? c) && (c <=? 8202)    (* U+2000 .. U+200A *)
   || (c =? 8232) || (c =? 8233)      (* U+2028, U+2029 *)
   || (c =? 8239) || (c =? 8287)      (* U+202F, U+205F *)
   || (c =? 12288))%N.                (* U+3000 *)

Definition newline : N := 10%N.
Definition space : N := 32%N.

(** [s.lstrip()], [s.rstrip()], [s.strip()]. *)
Fixpoint lstrip (s : pystr) : pystr :=
  match s with
  | [] => []
  | c :: s' => if isspace c then lstrip s' else s
  end.

Definition rstrip (s : pystr) : pystr := reverse (lstrip (reverse s)).

Definition strip (s : pystr) : pystr := rstrip (lstrip s).

(** [s.replace(old, new)] for one-character [old] and [new]. *)
Definition replace (old new : N) (s : pystr) : pystr :=
  (λ c, if (c =? old)%N then new else c) <$> s.

(** [s.split()]: the maximal runs of non-whitespace; [word] is the run
    being read, in reverse. *)
Fixpoint split_from (word : pystr) (s : pystr) : list pystr :=
  match s with
  | [] => match word with [] => [] | _ => [reverse word] end
  | c :: s' =>
      if isspace c
      then match word with
           | [] => split_from [] s'
           | _ => reverse word :: split_from [] s'
           end
      else split_from (c :: word) s'
  end.

Definition split (s : pystr) : list pystr := split_from [] s.

(** [sep.join(parts)]. *)
Fixpoint join (sep : pystr) (parts : list pystr) : pystr :=
  match parts with
  | [] => []
  | [p] => p
  | p :: rest => p ++ sep ++ join sep rest
  end.

(** [str(text)] of a string. *)
Definition str (text : pystr) : pystr := text.

(** [preprocessing(text)]: the third statement computes the join of the
    split tokens and drops it. *)
Definition preprocessing (text : pystr) : pystr :=
  let text := strip text in
  let text := replace newline space text in
  let _ := join [space] (split text) in
  text.

(** ** The imported modules [vocabulary] and [ngram]

    The script uses them through a few calls: [vocabulary.Vocabulary()],
    [vocab.update(text)], [vocab.chain_to_ids(text)], [gram.train(ids)]
    (and [load]/[save], modelled below on the file system).  What these
    calls compute is a parameter of the development, as is the type of
    a vocabulary; each of the calls may raise. *)
Class Modules (Vocabulary : Type) := {
  Vocabulary_new : Vocabulary;
  Vocabulary_update : Vocabulary → pystr → result Vocabulary;
  chain_to_ids : Vocabulary → pystr → result (list nat);
  Ngram_train : Ngram → list nat → result Ngram
}.

(** The keys of [config.json] that decide what [main] does (the scheduler
    addresses of the remote mode are left out). *)
Record Config := mkConfig {
  generate_name : string;
  ngram_range_min : Z;
  ngram_range_max : Z;
  dask_distributed : bool;
  parallelize : bool
}.

(** [range(start, stop)]. *)
Definition range (start stop : Z) : list Z :=
  (λ i, start + Z.of_nat i)%Z <$> seq 0 (Z.to_nat (stop - start)).

(** [f"model_{n}.ngram"]. *)
Definition model_file (n : Z) : string :=
  "model_" +:+ pretty n +:+ ".ngram".

Section trainer.
Context {Vocabulary : Type} `{!Modules Vocabulary}.

(** *** The world outside the process *)

(** The three folders under [data/], and the number of [uuid.uuid4()]
    draws so far.  [temp] holds the files [data/temp/<id>.tmp],
    [ngram_dirs] the [.ngram] files of each folder
    [data/ngram/<name>/<n>], [vocabs] the files of [data/vocabs].  The
    draws of [uuid4] are taken to be collision free: the k-th draw is the
    name [k]. *)
Record World := mkWorld {
  vocabs : gmap string Vocabulary;
  temp : gmap nat Ngram;
  ngram_dirs : gmap (string * Z) (gmap string Ngram);
  uuid_draws : nat
}.

Definition set_vocabs (f : gmap string Vocabulary → gmap string Vocabulary) (w : World) : World :=
  {| vocabs := f (vocabs w); temp := temp w;
     ngram_dirs := ngram_dirs w; uuid_draws := uuid_draws w |}.

Definition set_temp (f : gmap nat Ngram → gmap nat Ngram) (w : World) : World :=
  {| vocabs := vocabs w; temp := f (temp w);
     ngram_dirs := ngram_dirs w; uuid_draws := uuid_draws w |}.

Definition set_ngram_dirs
    (f : gmap (string * Z) (gmap string Ngram) → gmap (string * Z) (gmap string Ngram))
    (w : World) : World :=
  {| vocabs := vocabs w; temp := temp w;
     ngram_dirs := f (ngram_dirs w); uuid_draws := uuid_draws w |}.

(** A computation on the world that returns or raises; the world
    survives an exception. *)
Definition Run (A : Type) : Type := World → result A * World.

Definition Run_ret {A} (a : A) : Run A := λ w, (Ok a, w).

Definition Run_bind {A B} (f : A → Run B) (m : Run A) : Run B :=
  λ w, match m w with
       | (Ok a, w') => f a w'
       | (Raise e, w') => (Raise e, w')
       end.

Definition raise {A} (e : exn) : Run A := λ w, (Raise e, w).

Definition lift {A} (r : result A) : Run A := λ w, (r, w).

#[global] Instance Run_mret : MRet Run := @Run_ret.
#[global] Instance Run_mbind : MBind Run := @Run_bind.

(** [for x in l: body(x)]. *)
Fixpoint for_each {A} (l : list A) (body : A → Run ()) : Run () :=
  match l with
  | [] => mret ()
  | x :: l' => body x ;; for_each l' body
  end.

(** [[f(x) for x in l]]. *)
Fixpoint comprehension {A B} (l : list A) (f : A → Run B) : Run (list B) :=
  match l with
  | [] => mret []
  | x :: l' => y ← f x; ys ← comprehension l' f; mret (y :: ys)
  end.

(** [uuid.uuid4()]. *)
Definition uuid4 : Run nat :=
  λ w, (Ok (uuid_draws w),
        {| vocabs := vocabs w; temp := temp w;
           ngram_dirs := ngram_dirs w; uuid_draws := S (uuid_draws w) |}).

(** [glob("data/temp/*.tmp")]. *)
Definition glob_temp : Run (list nat) :=
  λ w, (Ok ((map_to_list (temp w)).*1), w).

(** [os.remove(path)] of a file of [data/temp]. *)
Definition os_remove_temp (path : nat) : Run () :=
  λ w, match temp w !! path with
       | Some _ => (Ok (), set_temp (delete path) w)
       | None => (Raise FileNotFoundError, w)
       end.

(** [[os.remove(path) for path in glob("data/temp/*.tmp")]]. *)
Definition remove_all_temp : Run () :=
  paths ← glob_temp; for_each paths os_remove_temp.

(** Modelled from the spec: [Ngram.save] and [Ngram.load] of the missing
    module [ngram], which the spec requires to round-trip exactly: a
    file holds the saved object, and loading gives it back. *)
Definition Ngram_save_temp (gram : Ngram) (unique_id : nat) : Run () :=
  λ w, (Ok (), set_temp <[unique_id := gram]> w).

Definition Ngram_load_temp (sub_gram : Ngram) (model_path : nat) : Run Ngram :=
  λ w, match temp w !! model_path with
       | Some stored => (Ok stored, w)
       | None => (Raise FileNotFoundError, w)
       end.

Definition Ngram_save_model (gram : Ngram) (output_path : string * Z) (file : string) : Run () :=
  λ w, (Ok (),
        set_ngram_dirs
          (λ dirs, <[output_path := <[file := gram]> (default ∅ (dirs !! output_path))]> dirs) w).

(** [os.makedirs(output_path, exist_ok=True)]. *)
Definition makedirs (output_path : string * Z) : Run () :=
  λ w, (Ok (),
        set_ngram_dirs
          (λ dirs, match dirs !! output_path with
                   | Some _ => dirs
                   | None => <[output_path := ∅]> dirs
                   end) w).

(** [[os.remove(path) for path in glob(f"{output_path}/*.ngram")]]. *)
Definition remove_all_ngram (output_path : string * Z) : Run () :=
  λ w, (Ok (), set_ngram_dirs (λ dirs, <[output_path := ∅]> dirs) w).

(** *** [load_or_create_vocabulary] *)

(** An exception of the [try] block is caught and ends the process by
    [sys.exit(1)].  Modelled from the spec: [Vocabulary.load] and
    [Vocabulary.save] of the missing module [vocabulary] round-trip
    exactly. *)
Definition load_or_create_vocabulary (data : list pystr) (name : string) : Run Vocabulary :=
  let vocab_file_name := name +:+ ".vocab" in
  λ w, let vocab := Vocabulary_new in
       match vocabs w !! vocab_file_name with
       | Some stored => (Ok stored, w)
       | None =>
           match foldl (λ acc text, vocab ← acc; Vocabulary_update vocab (str text))
                       (Ok vocab) data with
           | Ok vocab => (Ok vocab, set_vocabs <[vocab_file_name := vocab]> w)
           | Raise e => (Raise (SystemExit 1), w)
           end
       end.

(** *** [train_ngram] *)

Definition train_ngram (n : Z) (text : pystr) (vocab : Vocabulary) : Run () :=
  let gram := Ngram_new (Some n) in
  text ← lift (chain_to_ids vocab text);
  gram ← lift (Ngram_train gram text);
  unique_id ← uuid4;
  Ngram_save_temp gram unique_id.

(** The values the script passes to [train_ngram]. *)
Inductive value : Type :=
| VInt (n : Z)
| VStr (s : pystr)
| VVocabulary (v : Vocabulary).

(** A call of [train_ngram] with the positional arguments [args]: the three
    parameters [n], [text], [vocab] must all be bound.  (The script
    never passes three arguments of other types.) *)
Definition call_train_ngram (args : list value) : Run () :=
  match args with
  | [VInt n; VStr text; VVocabulary vocab] => train_ngram n text vocab
  | [_; _; _] => raise (TypeError "train_ngram(): unexpected argument type")
  | _ => raise (TypeError "train_ngram(): wrong number of positional arguments")
  end.

(** *** The local variables of [main] *)

(** [None] is an unbound name: never assigned, or deleted by [del]. *)
Record Locals := mkLocals {
  vocab : option Vocabulary;
  data : option (list pystr);
  distributed_vocab : option Vocabulary
}.

(** Reading a local variable. *)
Definition load_local {A} (name : string) (x : option A) : Run A :=
  match x with
  | Some a => mret a
  | None => raise (UnboundLocalError name)
  end.

(** *** Execution modes *)

(** [Parallel(n_jobs=-1)(tasks)]: the call returns when every task has
    run, and raises what a task raised.  The tasks are run here in the
    order of the list, one schedule among those of the worker pool. *)
Definition Parallel (tasks : list (Run ())) : Run () :=
  for_each tasks (λ task, task).

(** [client.compute(results)]: each delayed call runs on a worker and its
    outcome, a return or an exception, is kept in its future. *)
Definition compute (results : list (Run ())) : Run (list (result ())) :=
  comprehension results (λ task w, let '(r, w') := task w in (Ok r, w')).

(** [progress(futures)]: waits and shows a bar; reads no outcome. *)
Definition progress (futures : list (result ())) : Run () := mret ().

(** *** The body of [for n in range(ngram_min, ngram_max+1)] *)

(** The loop that folds the staged partials into [gram_final]. *)
Fixpoint merge_staged (models_to_merge : list nat) (gram_final : Ngram) : Run Ngram :=
  match models_to_merge with
  | [] => mret gram_final
  | model_path :: rest =>
      let sub_gram := Ngram_new None in
      sub_gram ← Ngram_load_temp sub_gram model_path;
      let gram_final := merge_grams gram_final sub_gram in
      os_remove_temp model_path ;;
      merge_staged rest gram_final
  end.

(** Lines 189-217: the training pass of order [n]. *)
Definition training_pass (config : Config) (l : Locals) (n : Z) : Run () :=
  if negb (dask_distributed config) then
    if parallelize config then
      data ← load_local "data" (data l);
      Parallel ((λ text, vocab ← load_local "vocab" (vocab l);
                         train_ngram n (str text) vocab) <$> data)
    else
      data ← load_local "data" (data l);
      for_each data (λ text, vocab ← load_local "vocab" (vocab l);
                             train_ngram n (str text) vocab)
  else
    data ← load_local "data" (data l);
    results ← comprehension data (λ text,
      distributed_vocab ← load_local "distributed_vocab" (distributed_vocab l);
      mret (call_train_ngram [VStr text; VVocabulary distributed_vocab]));
    futures ← compute results;
    progress futures.

(** Lines 223-224: [del vocab], [del data]. *)
Definition release (l : Locals) : Run Locals :=
  _ ← load_local "vocab" (vocab l);
  let l := {| vocab := None; data := data l; distributed_vocab := distributed_vocab l |} in
  _ ← load_local "data" (data l);
  mret {| vocab := vocab l; data := None; distributed_vocab := distributed_vocab l |}.

(** Lines 228-255: clear the output folder, merge, save, clear staging. *)
Definition merge_and_save (name : string) (n : Z) : Run () :=
  let output_path := (name, n) in
  makedirs output_path ;;
  remove_all_ngram output_path ;;
  models_to_merge ← glob_temp;
  let gram_final := Ngram_new None in
  gram_final ← merge_staged models_to_merge gram_final;
  Ngram_save_model gram_final output_path (model_file n) ;;
  remove_all_temp.

Definition train_order (config : Config) (l : Locals) (n : Z) : Run Locals :=
  remove_all_temp ;;
  training_pass config l n ;;
  l ← release l;
  merge_and_save (generate_name config) n ;;
  mret l.

Fixpoint for_orders (config : Config) (orders : list Z) (l : Locals) : Run Locals :=
  match orders with
  | [] => mret l
  | n :: rest => l ← train_order config l n; for_orders config rest l
  end.

(** *** [main] *)

(** [load_config()] gives [config] and [load_data(config)] gives [raw];
    the three [os.makedirs] at the top create folders every [World]
    has. *)
Definition startup (config : Config) (raw : list pystr) : Run Locals :=
  let data := preprocessing <$> raw in
  vocab ← load_or_create_vocabulary data (generate_name config);
  mret {| vocab := Some vocab;
          data := Some data;
          distributed_vocab :=
            if dask_distributed config then Some vocab else None |}.

Definition main (config : Config) (raw : list pystr) : Run () :=
  l ← startup config raw;
  let ngram_min := ngram_range_min config in
  let ngram_max := ngram_range_max config in
  for_orders config (range ngram_min (ngram_max + 1)) l ;;
  mret ().

End trainer.

Arguments World : clear implicits.
Arguments Locals : clear implicits.
Arguments Run : clear implicits.

(** ** [merge_grams] on the objects themselves

    [merge_grams] writes into [gram1], and [gram1.chain_frequency[key] =
    value] stores the inner dictionary of [gram2] itself, not a copy.
    This module keeps the dictionaries in a store, by address, to state
    when the returned table has the contents that [merge_grams] above
    computes on values. *)
Module InPlace.

(** The store: the [chain_frequency] of each [Ngram] object, which maps
    a context to the address of an inner dictionary, and the inner
    dictionaries.  An address without an object reads as an empty
    dictionary. *)
Record Heap := mkHeap {
  tables : gmap nat (gmap (list nat) nat);
  dicts : gmap nat NextCounts
}.

Definition table_at (h : Heap) (gram : nat) : gmap (list nat) nat :=
  default ∅ (tables h !! gram).

Definition dict_at (h : Heap) (a : nat) : NextCounts :=
  default ∅ (dicts h !! a).

Definition set_table (gram : nat) (cf : gmap (list nat) nat) (h : Heap) : Heap :=
  {| tables := <[gram := cf]> (tables h); dicts := dicts h |}.

Definition set_dict (a : nat) (d : NextCounts) (h : Heap) : Heap :=
  {| tables := tables h; dicts := <[a := d]> (dicts h) |}.

(** The contents of the table of the object [gram]. *)
Definition content (h : Heap) (gram : nat) : FrequencyTable :=
  dict_at h <$> table_at h gram.

(** The body of the inner loop, writing into the dictionary at [d1],
    which is [gram1.chain_frequency[key]]. *)
Definition merge_sub_step (d1 : nat) (sub_key : nat) (sub_value : Z) (h : Heap) : Heap :=
  let d := dict_at h d1 in
  match d !! sub_key with
  | None => set_dict d1 (<[sub_key := sub_value]> d) h
  | Some c => set_dict d1 (<[sub_key := (c + sub_value)%Z]> d) h
  end.

(** The body of the outer loop; [value] is the address of the inner
    dictionary of [gram2] at [key].  The loops run over the items a
    dictionary has when its loop starts: while a dictionary is iterated
    the script assigns to it only at the key being visited, which is
    already in it. *)
Definition merge_step (gram1 : nat) (key : list nat) (value : nat) (h : Heap) : Heap :=
  let cf := table_at h gram1 in
  match cf !! key with
  | None => set_table gram1 (<[key := value]> cf) h
  | Some d1 => map_fold (merge_sub_step d1) h (dict_at h value)
  end.

(** [merge_grams(gram1, gram2)] on the addresses of two [Ngram] objects:
    the address returned is [gram1]. *)
Definition merge_grams (h : Heap) (gram1 gram2 : nat) : nat * Heap :=
  (gram1, map_fold (merge_step gram1) h (table_at h gram2)).

(** The addresses of the inner dictionaries of the table of [gram]. *)
Definition footprint (h : Heap) (gram : nat) : gset nat :=
  map_img (table_at h gram).

(** No inner dictionary is stored twice in the table of [gram]. *)
Definition unique_dicts (h : Heap) (gram : nat) : Prop :=
  ∀ k k' a, table_at h gram !! k = Some a → table_at h gram !! k' = Some a → k = k'.

(** No inner dictionary is stored twice in [gram1], and [gram1] shares
    an inner dictionary with [gram2] at most under the same context.
    Objects built or loaded each on its own satisfy both, and so does an
    object merged with itself. *)
Definition unshared (h : Heap) (gram1 gram2 : nat) : Prop :=
  unique_dicts h gram1 ∧
  (∀ k k' a, table_at h gram1 !! k = Some a → table_at h gram2 !! k' = Some a → k = k').

(** The objects of a list are distinct and share no inner dictionary,
    as tables each built or loaded on its own are. *)
Fixpoint separate (h : Heap) (models : list nat) : Prop :=
  match models with
  | [] => True
  | gram :: rest =>
      unique_dicts h gram ∧ (gram ∉ rest) ∧
      (∀ gram', gram' ∈ rest → footprint h gram ## footprint h gram') ∧
      separate h rest
  end.

(** [merge_models_incrementally] on the addresses: the body of the [for]
    loop, a round, and the [while] loop. *)
Definition pair_step (models_to_merge : list nat) (st : list nat * Heap) (i : nat)
    : result (list nat * Heap) :=
  let '(new_models, h) := st in
  if decide (i + 1 < length models_to_merge) then
    model1 ← getitem models_to_merge i;
    model2 ← getitem models_to_merge (i + 1);
    (let '(merged_model, h) := merge_grams h model1 model2 in
     Ok (new_models ++ [merged_model], h))
  else
    model ← getitem models_to_merge i;
    Ok (new_models ++ [model], h).

Definition pair_round (h : Heap) (models_to_merge : list nat) : result (list nat * Heap) :=
  foldl (λ acc i, st ← acc; pair_step models_to_merge st i)
        (Ok ([], h)) (range_by_2 (length models_to_merge)).

(** The same round by recursion on the list. *)
Fixpoint pairs (h : Heap) (models : list nat) : list nat * Heap :=
  match models with
  | model1 :: model2 :: rest =>
      let '(merged_model, h) := merge_grams h model1 model2 in
      let '(new_models, h) := pairs h rest in
      (merged_model :: new_models, h)
  | _ => (models, h)
  end.

(** The sum of the contents of the objects of a list. *)
Definition total (h : Heap) (models : list nat) : FrequencyTable :=
  foldr (λ gram t, merge (content h gram) t) ∅ models.

Lemma inplace_pair_step_pair (pre rest acc : list nat) (model1 model2 : nat) (h : Heap) :
  pair_step (pre ++ model1 :: model2 :: rest) (acc, h) (length pre)
  = Ok (acc ++ [model1], (merge_grams h model1 model2).2).
Proof.
  unfold pair_step, getitem. rewrite length_app. cbn [length].
  destruct (decide _) as [_|Hge]; [|lia].
  rewrite !lookup_app_r by lia.
  replace (length pre - length pre) with 0 by lia.
  by replace (length pre + 1 - length pre) with 1 by lia.
Qed.

Lemma inplace_pair_step_last (pre acc : list nat) (model : nat) (h : Heap) :
  pair_step (pre ++ [model]) (acc, h) (length pre) = Ok (acc ++ [model], h).
Proof.
  unfold pair_step, getitem. rewrite length_app. cbn [length].
  destruct (decide _) as [Hlt|_]; [lia|].
  rewrite lookup_app_r by lia.
  by replace (length pre - length pre) with 0 by lia.
Qed.

Lemma inplace_pairs_ind (P : list nat → Prop) :
  P [] → (∀ model, P [model]) →
  (∀ model1 model2 rest, P rest → P (model1 :: model2 :: rest)) →
  ∀ models, P models.
Proof.
  intros Hnil Hone Hstep.
  fix IH 1. intros [|model1 [|model2 rest]].
  - exact Hnil.
  - apply Hone.
  - apply Hstep, IH.
Qed.

Lemma inplace_pairs_cons (h : Heap) (model1 model2 : nat) (rest : list nat) :
  pairs h (model1 :: model2 :: rest)
  = (model1 :: (pairs (merge_grams h model1 model2).2 rest).1,
     (pairs (merge_grams h model1 model2).2 rest).2).
Proof.
  cbn [pairs]. unfold merge_grams. cbn [snd].
  by destruct (pairs _ rest).
Qed.

Lemma inplace_pair_round_from (rest pre acc : list nat) (k : nat) (h : Heap) :
  length pre = 2 * k →
  foldl (λ acc i, st ← acc; pair_step (pre ++ rest) st i)
        (Ok (acc, h)) ((λ j, 2 * j) <$> seq k (Nat.div2 (S (length rest))))
  = Ok (acc ++ (pairs h rest).1, (pairs h rest).2).
Proof.
  revert pre acc k h.
  induction rest as [|model|model1 model2 rest IH] using inplace_pairs_ind;
    intros pre acc k h Hpre.
  - cbn [length Nat.div2 seq fmap list_fmap foldl pairs fst snd].
    by rewrite app_nil_r.
  - cbn [length Nat.div2 seq fmap list_fmap foldl pairs fst snd]. rewrite <- Hpre.
    apply inplace_pair_step_last.
  - change (Nat.div2 (S (length (model1 :: model2 :: rest))))
      with (S (Nat.div2 (S (length rest)))).
    rewrite <- cons_seq, fmap_cons. cbn [foldl]. rewrite <- Hpre.
    change (Ok (acc, h) ≫= ?f) with (f (acc, h)). cbv beta.
    rewrite inplace_pair_step_pair, inplace_pairs_cons. cbn [fst snd].
    replace (pre ++ model1 :: model2 :: rest)
      with ((pre ++ [model1; model2]) ++ rest) by by rewrite <- app_assoc.
    rewrite (IH (pre ++ [model1; model2]) _ (S k)).
    + by rewrite <- app_assoc.
    + rewrite length_app. cbn [length]. lia.
Qed.

Lemma inplace_pair_round_pairs (h : Heap) (models : list nat) :
  pair_round h models = Ok (pairs h models).
Proof.
  pose proof (inplace_pair_round_from models [] [] 0 h eq_refl) as Hfrom.
  cbn [app] in Hfrom. unfold pair_round, range_by_2. rewrite Hfrom.
  by destruct (pairs h models).
Qed.

Lemma inplace_pairs_length (h : Heap) (models : list nat) :
  1 < length models → length (pairs h models).1 < length models.
Proof.
  revert h.
  induction models as [|model|model1 model2 rest IH] using inplace_pairs_ind;
    intros h Hlen; [simpl in Hlen; lia..|].
  rewrite inplace_pairs_cons. cbn [fst length].
  destruct rest as [|model3 [|model4 rest]]; [simpl; lia..|].
  specialize (IH (merge_grams h model1 model2).2).
  cbn [length] in *. lia.
Qed.

Equations? merge_models_incrementally (h : Heap) (models_to_merge : list nat)
    : result (nat * Heap) by wf (length models_to_merge) lt :=
  merge_models_incrementally h models_to_merge with inspect (bool_decide (1 < length models_to_merge)) := {
    | exist _ true Hlen with inspect (pair_round h models_to_merge) := {
        | exist _ (Ok (new_models, h')) Hround := merge_models_incrementally h' new_models;
        | exist _ (Raise e) _ := Raise e };
    | exist _ false _ := model ← getitem models_to_merge 0; Ok (model, h) }.
Proof.
  apply bool_decide_eq_true_1 in Hlen.
  rewrite inplace_pair_round_pairs in Hround. injection Hround as Hround.
  pose proof (inplace_pairs_length h models_to_merge Hlen) as Hlt.
  by rewrite Hround in Hlt.
Qed.

End InPlace.

(** ** The missing modules, from the specification

    An instance of [Modules] to run the script on concrete inputs. *)

(** Modelled from the spec: the [Vocabulary] of the missing module
    [vocabulary], a bijection between tokens and dense ids assigned in
    first-occurrence order from 0: the list of the tokens, a token's id
    being its position. *)
Definition spec_Vocabulary : Type := list pystr.

(** Modelled from the spec: [Vocabulary.update] of the missing module
    [vocabulary]: tokenize (by whitespace, as in the spec's example) and
    give a new id to each token seen for the first time. *)
Definition spec_update (vocab : list pystr) (text : pystr) : result (list pystr) :=
  Ok (foldl (λ v token, if decide (token ∈ v) then v else v ++ [token])
            vocab (split text)).

(** Modelled from the spec: [Vocabulary.chain_to_ids] of the missing
    module [vocabulary]: tokenize identically and look each token up.
    The spec leaves the policy for an absent token open between a
    reserved id and an error; this model rejects with an error. *)
Definition spec_chain_to_ids (vocab : list pystr) (text : pystr) : result (list nat) :=
  foldr (λ token acc,
           match list_find (λ t, t = token) vocab with
           | Some (id, _) => ids ← acc; Ok (id :: ids)
           | None => Raise (Exception "token absent from the vocabulary")
           end)
        (Ok []) (split text).

(** [table[context][next] += 1], an absent entry counting 0. *)
Definition increment (table : FrequencyTable) (context : list nat) (next : nat)
    : FrequencyTable :=
  let d := default ∅ (table !! context) in
  <[context := <[next := (default 0 (d !! next) + 1)%Z]> d]> table.

(** Modelled from the spec: [Ngram.train] of the missing module [ngram]:
    for every position [i >= order - 1], increment the entry of
    [context = sequence[i-order+1 : i]] and [next = sequence[i]]; a
    sequence shorter than [order] contributes nothing.  An order below 1
    or left out is rejected. *)
Definition spec_train (gram : Ngram) (sequence : list nat) : result Ngram :=
  match order gram with
  | Some n =>
      if decide (1 ≤ n)%Z then
        let k := Z.to_nat n in
        Ok {| order := order gram;
              chain_frequency :=
                foldl (λ table i,
                         match sequence !! i with
                         | Some next =>
                             increment table (take (k - 1) (drop (i + 1 - k) sequence)) next
                         | None => table
                         end)
                      (chain_frequency gram)
                      (seq (k - 1) (length sequence - (k - 1))) |}
      else Raise (Exception "order below 1")
  | None => Raise (Exception "order left out")
  end.

#[global] Instance spec_modules : Modules spec_Vocabulary := {|
  Vocabulary_new := [];
  Vocabulary_update := spec_update;
  chain_to_ids := spec_chain_to_ids;
  Ngram_train := spec_train
|}.

(** An empty file system. *)
Definition empty_world : World spec_Vocabulary :=
  {| vocabs := ∅; temp := ∅; ngram_dirs := ∅; uuid_draws := 0 |}.

(** The corpus of the spec's end-to-end example. *)
Definition cat_dog_corpus : list pystr :=
  [lit "the cat sat"; lit "the dog sat"].

(** The content of [data/ngram/<name>/<n>/model_<n>.ngram]. *)
Definition final_model {Vocabulary : Type} (w : World Vocabulary) (name : string) (n : Z)
    : option FrequencyTable :=
  dir ← ngram_dirs w !! (name, n);
  gram ← dir !! model_file n;
  Some (chain_frequency gram).

(** ** Notions used in the statements *)

(** The sum of the tables of a list, from the left. *)
Definition total (models : list Ngram) : FrequencyTable :=
  foldr (λ g t, merge (chain_frequency g) t) ∅ models.

(** The string does not start, or does not end, with whitespace. *)
Definition no_leading_space (s : pystr) : Prop :=
  ∀ c, head s = Some c → isspace c = false.

Definition no_trailing_space (s : pystr) : Prop :=
  ∀ c, last s = Some c → isspace c = false.

Definition all_space (s : pystr) : Prop := Forall (λ c, isspace c = true) s.

(** Two small tables. *)
Definition table_a : Ngram :=
  mkNgram (Some 2%Z) {[ [0] := {[ 1 := 1%Z ]} ]}.

Definition table_b : Ngram :=
  mkNgram (Some 2%Z) {[ [0] := {[ 1 := 2%Z; 3 := 1%Z ]}; [1] := {[ 2 := 1%Z ]} ]}.

(** *** Invariants of the in-place loops *)

(** The state of the outer loop after the items [m] of [gram2]: the
    table of [gram1] has the contexts of [m] besides its own [cf1]; an
    inner dictionary of [gram1] under a context of [m] has received the
    counts of [gram2]'s; the other dictionaries are as they were. *)
Definition inplace_after (h : InPlace.Heap) (gram1 : nat)
    (m : gmap (list nat) nat) (r : InPlace.Heap) : Prop :=
  let cf1 := InPlace.table_at h gram1 in
  InPlace.table_at r gram1 = cf1 ∪ m ∧
  (∀ k a v, cf1 !! k = Some a → m !! k = Some v →
     InPlace.dict_at r a = sum_counts (InPlace.dict_at h a) (InPlace.dict_at h v)) ∧
  (∀ a, (∀ k v, cf1 !! k = Some a → m !! k = Some v → False) →
     InPlace.dict_at r a = InPlace.dict_at h a) ∧
  (∀ g, g ≠ gram1 → InPlace.table_at r g = InPlace.table_at h g).

(** What a round keeps: the objects left are among those it started
    from and still separate, the sum of their contents is the same, and
    everything outside the objects of the round is as it was. *)
Definition inplace_round_ok (h : InPlace.Heap) (models : list nat)
    (h' : InPlace.Heap) (new_models : list nat) : Prop :=
  (∀ g, g ∈ new_models → g ∈ models) ∧
  InPlace.separate h' new_models ∧
  InPlace.total h' new_models = InPlace.total h models ∧
  (∀ c, c ∉ models → InPlace.table_at h' c = InPlace.table_at h c) ∧
  (∀ a, (∀ g, g ∈ models → a ∉ InPlace.footprint h g) →
        InPlace.dict_at h' a = InPlace.dict_at h a) ∧
  (∀ g' a, g' ∈ new_models → a ∈ InPlace.footprint h' g' →
           ∃ g, g ∈ models ∧ a ∈ InPlace.footprint h g).

(** *** The orchestration *)

(** The shard trainer as a function of the order, the vocabulary and the
    shard's text: the table that [train_ngram] stages. *)
Definition partial `{!Modules Vocabulary} (n : Z) (vocab : Vocabulary) (text : pystr) : result Ngram :=
  ids ← chain_to_ids vocab text;
  Ngram_train (Ngram_new (Some n)) ids.

(** The world after a table is staged under the next unique id. *)
Definition stage {Vocabulary : Type} (w : World Vocabulary) (gram : Ngram) : World Vocabulary :=
  {| vocabs := vocabs w;
     temp := <[uuid_draws w := gram]> (temp w);
     ngram_dirs := ngram_dirs w;
     uuid_draws := S (uuid_draws w) |}.

(** The three execution modes. *)
Inductive mode : Type := Sequential | LocalParallel | RemoteDistributed.

Definition config_of (name : string) (ngram_min ngram_max : Z) (m : mode) : Config :=
  {| generate_name := name;
     ngram_range_min := ngram_min;
     ngram_range_max := ngram_max;
     dask_distributed := match m with RemoteDistributed => true | _ => false end;
     parallelize := match m with LocalParallel => true | _ => false end |}.

(** The staged tables, as [glob] lists their files. *)
Definition staged {Vocabulary : Type} (w : World Vocabulary) : list Ngram :=
  (map_to_list (temp w)).*2.

(** The output folders after the final model [gram] of order [n] is
    saved in a cleared folder. *)
Definition persist (name : string) (n : Z) (gram : Ngram)
    (dirs : gmap (string * Z) (gmap string Ngram)) : gmap (string * Z) (gmap string Ngram) :=
  <[(name, n) := {[ model_file n := gram ]}]> dirs.

(** The local variables after [del vocab] and [del data]. *)
Definition released {Vocabulary : Type} (l : Locals Vocabulary) : Locals Vocabulary :=
  {| vocab := None; data := None; distributed_vocab := distributed_vocab l |}.

(** *** Concrete runs, on the modules modelled from the specification *)

(** The vocabulary of the example corpus: the=0, cat=1, sat=2, dog=3. *)
Definition cat_dog_vocab : list pystr :=
  [lit "the"; lit "cat"; lit "sat"; lit "dog"].

(** The local variables of [main] when the loop over the orders starts
    on the example corpus. *)
Definition cat_dog_locals (m : mode) : Locals spec_Vocabulary :=
  {| vocab := Some cat_dog_vocab;
     data := Some (preprocessing <$> cat_dog_corpus);
     distributed_vocab :=
       match m with RemoteDistributed => Some cat_dog_vocab | _ => None end |}.

(** A file system where an earlier run left a staged file behind. *)
Definition stale_world : World spec_Vocabulary :=
  {| vocabs := ∅; temp := {[ 7 := table_a ]}; ngram_dirs := ∅; uuid_draws := 0 |}.

(** A file system with the model of order 1 of an earlier run, and a
    persisted vocabulary that lacks tokens of the example corpus. *)
Definition prior_world : World spec_Vocabulary :=
  {| vocabs := {[ "p.vocab" := [lit "the"] ]};
     temp := ∅;
     ngram_dirs := {[ ("p", 1%Z) := {[ model_file 1 := table_a ]} ]};
     uuid_draws := 0 |}.

(** The training pass of order 2 on the example corpus, in mode [m]. *)
Definition first_pass (m : mode) : result () * World spec_Vocabulary :=
  training_pass (config_of "p" 2 2 m) (cat_dog_locals m) 2 empty_world.

(** A store with three objects: at 0 and 1 the tables [table_a] and
    [table_b], at 2 a freshly constructed one. *)
Definition example_heap : InPlace.Heap :=
  {| InPlace.tables :=
       {[ 0 := {[ [0] := 10 ]}; 1 := {[ [0] := 11; [1] := 12 ]}; 2 := ∅ ]};
     InPlace.dicts :=
       {[ 10 := {[ 1 := 1%Z ]};
          11 := {[ 1 := 2%Z; 3 := 1%Z ]};
          12 := {[ 2 := 1%Z ]} ]} |}.

(** The value of an object. *)
Definition value_of (h : InPlace.Heap) (gram : nat) : Ngram :=
  {| order := None; chain_frequency := InPlace.content h gram |}.

(** The model the spec expects for the example corpus at order 2:
    the -> {cat: 1, dog: 1}, cat -> {sat: 1}, dog -> {sat: 1}. *)
Definition cat_dog_model : FrequencyTable :=
  {[ [0] := {[ 1 := 1%Z; 3 := 1%Z ]}; [1] := {[ 2 := 1%Z ]}; [3] := {[ 2 := 1%Z ]} ]}.

(** ** Notions used in the further properties *)

(** The output folders and the vocabulary files are the same in both
    worlds. *)
Definition same_outputs {Vocabulary : Type} (w w' : World Vocabulary) : Prop :=
  vocabs w' = vocabs w ∧ ngram_dirs w' = ngram_dirs w.

(** A computation that leaves the output folders and the vocabulary
    files alone, whether it returns or raises. *)
Definition keeps_outputs {Vocabulary : Type} {A : Type} (m : Run Vocabulary A) : Prop :=
  ∀ w, same_outputs w (m w).2.

(** No count of the table is negative. *)
Definition nonneg (t : FrequencyTable) : Prop :=
  map_Forall (λ _ d, map_Forall (λ _ c, (0 ≤ c)%Z) (d : NextCounts)) t.

(** The number of transitions a table has counted: the sum of all its
    counts. *)
Definition mass_of (d : NextCounts) : Z :=
  map_fold (λ _ c acc, (c + acc)%Z) 0%Z d.

Definition mass (t : FrequencyTable) : Z :=
  map_fold (λ _ d acc, (mass_of d + acc)%Z) 0%Z t.

(** The sum of the masses of the tables of a list. *)
Definition masses (models : list Ngram) : Z :=
  foldr (λ g acc, (mass (chain_frequency g) + acc)%Z) 0%Z models.

(** The local variables of [main] on the example corpus with a
    vocabulary that lacks the token of the second document. *)
Definition short_vocab_locals : Locals spec_Vocabulary :=
  {| vocab := Some [lit "the"; lit "cat"; lit "sat"];
     data := Some (preprocessing <$> cat_dog_corpus);
     distributed_vocab := None |}.

(** The tables of the two documents of the example corpus at order 2. *)
Definition the_cat_sat : Ngram :=
  mkNgram (Some 2%Z) {[ [0] := {[ 1 := 1%Z ]}; [1] := {[ 2 := 1%Z ]} ]}.

Definition the_dog_sat : Ngram :=
  mkNgram (Some 2%Z) {[ [0] := {[ 3 := 1%Z ]}; [3] := {[ 2 := 1%Z ]} ]}.

(** The file system after the vocabulary of the example corpus is
    saved. *)
Definition vocab_world : World spec_Vocabulary :=
  {| vocabs := {[ "p.vocab" := cat_dog_vocab ]};
     temp := ∅; ngram_dirs := ∅; uuid_draws := 0 |}.


(** What [spec_chain_to_ids] raises at a token the vocabulary lacks. *)
Definition absent_token : exn := Exception "token absent from the vocabulary".

(** ** [load_data]

    The values [json.load] builds, which [load_data] receives as
    [parameters]: a Python [dict] is the list of its items, each key
    once.  The type of the floating-point numbers is left open: no
    number is computed with here. *)
Section loading.
Context {Float : Type}.

#[local] Set Warnings "-register-all".
Inductive json : Type :=
| JNull
| JBool (b : bool)
| JInt (z : Z)
| JFloat (x : Float)
| JStr (s : pystr)
| JList (l : list json)
| JDict (d : list (pystr * json)).

(** [KeyError] is of class [Exception], and the handler of [load_data]
    treats every exception of that class alike. *)
Definition KeyError : exn := Exception "KeyError".

Fixpoint items_lookup (key : pystr) (d : list (pystr * json)) : option json :=
  match d with
  | [] => None
  | (k, v) :: d' => if decide (k = key) then Some v else items_lookup key d'
  end.

(** [v[key]] for a [str] key. *)
Definition subscript (v : json) (key : pystr) : result json :=
  match v with
  | JDict d =>
      match items_lookup key d with
      | Some x => Ok x
      | None => Raise KeyError
      end
  | JList _ => Raise (TypeError "list indices must be integers or slices, not str")
  | JStr _ => Raise (TypeError "string indices must be integers, not 'str'")
  | _ => Raise (TypeError "object is not subscriptable")
  end.

(** [v == s] for a [str] literal [s]. *)
Definition eq_str (v : json) (s : pystr) : bool :=
  match v with
  | JStr t => bool_decide (t = s)
  | _ => false
  end.

(** [v + s] for a [str] literal [s], and [s + v] for a [str] [s]: only
    a [str] can be added to a [str]. *)
Definition add_str (v : json) (s : pystr) : result pystr :=
  match v with
  | JStr t => Ok (t ++ s)
  | _ => Raise (TypeError "unsupported operand type(s) for +")
  end.

Definition str_add (s : pystr) (v : json) : result pystr :=
  match v with
  | JStr t => Ok (s ++ t)
  | _ => Raise (TypeError "can only concatenate str to str")
  end.

(** The classes caught by [except Exception]: every exception of the
    model but [SystemExit]. *)
Definition is_Exception (e : exn) : bool :=
  match e with
  | SystemExit _ => false
  | _ => true
  end.

(** Reading a local variable. *)
Definition read_local {A} (name : string) (x : option A) : result A :=
  match x with
  | Some a => Ok a
  | None => Raise (UnboundLocalError name)
  end.

(** [[f(x) for x in l]]. *)
Fixpoint comprehend {A B} (f : A → result B) (l : list A) : result (list B) :=
  match l with
  | [] => Ok []
  | x :: l' => y ← f x; ys ← comprehend f l'; Ok (y :: ys)
  end.

(** What [load_data] calls outside the script: [pd.read_csv(path,
    **kwargs)], [df[column].to_list()], [glob(pattern)] and
    [open(file, encoding="utf-8", mode="r").read()]. *)
Context {DataFrame : Type}.
Variable read_csv : json → json → result DataFrame.
Variable column_to_list : DataFrame → json → result (list json).
Variable glob : pystr → list pystr.
Variable read_file : pystr → result pystr.

(** The body of [if data_type == "df"]. *)
Definition read_df (parameters path : json) : result (list json) :=
  source_params ← subscript parameters (lit "source_params");
  df_parameters ← subscript source_params (lit "df_parameters");
  df ← read_csv path df_parameters;
  source_params ← subscript parameters (lit "source_params");
  df_column ← subscript source_params (lit "df_column");
  column_to_list df df_column.

(** The body of [if data_type == "files"]. *)
Definition read_files (parameters path : json) : result (list json) :=
  pattern ← add_str path (lit "*");
  file_extension ← subscript parameters (lit "file_extension");
  pattern ← str_add pattern file_extension;
  let files_paths := glob pattern in
  result_bind (λ data, Ok (JStr <$> data)) (comprehend read_file files_paths).

(** An assignment to a local variable. *)
Definition bind_local {A} (r : result A) : result (option A) :=
  a ← r; Ok (Some a).

(** The [try] block after [path] is bound; [data] is a local variable
    that the two [if] statements may leave unbound. *)
Definition load_data_body (parameters path : json) : result (list json) :=
  data_type ← subscript parameters (lit "data_type");
  data ← (if eq_str data_type (lit "df")
          then bind_local (read_df parameters path)
          else Ok None);
  data ← (if eq_str data_type (lit "files")
          then bind_local (read_files parameters path)
          else Ok data);
  read_local "data" data.

(** The handler: its first statement formats [path] into the message,
    then [sys.exit(1)]. *)
Definition load_data_handler {A} (path : option json) (e : exn) : result A :=
  if is_Exception e then
    _ ← read_local "path" path;
    Raise (SystemExit 1)
  else Raise e.

Definition load_data (parameters : json) : result (list json) :=
  match subscript parameters (lit "source") with
  | Raise e => load_data_handler None e
  | Ok path =>
      match load_data_body parameters path with
      | Ok data => Ok data
      | Raise e => load_data_handler (Some path) e
      end
  end.

End loading.

Arguments json : clear implicits.


Definition no_csv (path kwargs : json Z) : result () := Raise FileNotFoundError.
Definition no_column (df : ()) (column : json Z) : result (list (json Z)) := Raise KeyError.
Definition no_file (pattern : pystr) : list pystr := [].
Definition unreadable (file : pystr) : result pystr := Raise FileNotFoundError.

(** * Properties *)

(** ** The loops of [merge_grams] compute the union with sum *)

Lemma merge_sub_step_lookup (sub_key : nat) (sub_value : Z) (d : NextCounts) (s : nat) :
  merge_sub_step sub_key sub_value d !! s =
  if decide (sub_key = s)
  then Some (default 0 (d !! sub_key) + sub_value)%Z
  else d !! s.
Proof.
  unfold merge_sub_step.
  destruct (d !! sub_key) as [c|] eqn:E; rewrite lookup_insert;
    case_decide; simpl; auto.
Qed.

Lemma merge_sub_lookup (d value : NextCounts) (s : nat) :
  merge_sub d value !! s
  = union_with (λ c1 c2, Some (c1 + c2)%Z) (d !! s) (value !! s).
Proof.
  unfold merge_sub. revert s.
  apply (map_fold_weak_ind (λ r m, ∀ s,
    r !! s = union_with (λ c1 c2, Some (c1 + c2)%Z) (d !! s) (m !! s))).
  - intros s. rewrite lookup_empty. by destruct (d !! s).
  - intros i x m r Hi IH s. rewrite merge_sub_step_lookup, lookup_insert.
    case_decide as Hs.
    + subst s. rewrite IH, Hi. by destruct (d !! i).
    + apply IH.
Qed.

Lemma merge_sub_sum_counts (d value : NextCounts) :
  merge_sub d value = sum_counts d value.
Proof.
  apply map_eq. intros s. unfold sum_counts.
  by rewrite merge_sub_lookup, lookup_union_with.
Qed.

Lemma merge_step_lookup (key : list nat) (value : NextCounts)
    (cf : FrequencyTable) (k : list nat) :
  merge_step key value cf !! k =
  if decide (key = k)
  then Some (match cf !! key with
             | None => value
             | Some d => sum_counts d value
             end)
  else cf !! k.
Proof.
  unfold merge_step.
  destruct (cf !! key) as [d|] eqn:E; rewrite lookup_insert;
    case_decide; auto. by rewrite merge_sub_sum_counts.
Qed.

Lemma merge_fold_lookup (cf1 cf2 : FrequencyTable) (k : list nat) :
  map_fold merge_step cf1 cf2 !! k =
  union_with (λ d1 d2, Some (sum_counts d1 d2)) (cf1 !! k) (cf2 !! k).
Proof.
  revert k.
  apply (map_fold_weak_ind (λ r m, ∀ k,
    r !! k = union_with (λ d1 d2, Some (sum_counts d1 d2)) (cf1 !! k) (m !! k))).
  - intros k. rewrite lookup_empty. by destruct (cf1 !! k).
  - intros i x m r Hi IH k. rewrite merge_step_lookup, lookup_insert.
    case_decide as Hk.
    + subst k. rewrite IH, Hi. by destruct (cf1 !! i).
    + apply IH.
Qed.

(** [merge_grams] refines the operator of the specification. *)
Lemma merge_grams_merge (gram1 gram2 : Ngram) :
  chain_frequency (merge_grams gram1 gram2) =
  merge (chain_frequency gram1) (chain_frequency gram2).
Proof.
  apply map_eq. intros k. unfold merge. simpl.
  by rewrite merge_fold_lookup, lookup_union_with.
Qed.

(** ** Algebra of [merge] *)

Lemma sum_counts_lookup (d1 d2 : NextCounts) (s : nat) :
  sum_counts d1 d2 !! s
  = union_with (λ c1 c2, Some (c1 + c2)%Z) (d1 !! s) (d2 !! s).
Proof. unfold sum_counts. apply lookup_union_with. Qed.

Lemma merge_lookup (a b : FrequencyTable) (k : list nat) :
  merge a b !! k
  = union_with (λ d1 d2, Some (sum_counts d1 d2)) (a !! k) (b !! k).
Proof. unfold merge. apply lookup_union_with. Qed.

Lemma sum_counts_comm (d1 d2 : NextCounts) : sum_counts d1 d2 = sum_counts d2 d1.
Proof.
  apply map_eq. intros s. rewrite !sum_counts_lookup.
  destruct (d1 !! s), (d2 !! s); simpl; auto. f_equal. lia.
Qed.

Lemma sum_counts_assoc (d1 d2 d3 : NextCounts) :
  sum_counts (sum_counts d1 d2) d3 = sum_counts d1 (sum_counts d2 d3).
Proof.
  apply map_eq. intros s. rewrite !sum_counts_lookup.
  destruct (d1 !! s), (d2 !! s), (d3 !! s); simpl; auto. f_equal. lia.
Qed.

Lemma merge_comm (a b : FrequencyTable) : merge a b = merge b a.
Proof.
  apply map_eq. intros k. rewrite !merge_lookup.
  destruct (a !! k), (b !! k); simpl; auto. f_equal. apply sum_counts_comm.
Qed.

Lemma merge_assoc (a b c : FrequencyTable) :
  merge (merge a b) c = merge a (merge b c).
Proof.
  apply map_eq. intros k. rewrite !merge_lookup.
  destruct (a !! k), (b !! k), (c !! k); simpl; auto.
  f_equal. apply sum_counts_assoc.
Qed.

Lemma merge_empty_l (b : FrequencyTable) : merge ∅ b = b.
Proof.
  apply map_eq. intros k. rewrite merge_lookup, lookup_empty.
  by destruct (b !! k).
Qed.

Lemma merge_empty_r (a : FrequencyTable) : merge a ∅ = a.
Proof. by rewrite merge_comm, merge_empty_l. Qed.

Lemma count_merge (a b : FrequencyTable) (key : list nat) (sub_key : nat) :
  count (merge a b) key sub_key = (count a key sub_key + count b key sub_key)%Z.
Proof.
  unfold count. rewrite merge_lookup.
  destruct (a !! key) as [d1|], (b !! key) as [d2|]; simpl; try lia.
  rewrite sum_counts_lookup.
  destruct (d1 !! sub_key), (d2 !! sub_key); simpl; lia.
Qed.

Lemma has_entry_merge (a b : FrequencyTable) (key : list nat) (sub_key : nat) :
  has_entry (merge a b) key sub_key ↔ has_entry a key sub_key ∨ has_entry b key sub_key.
Proof.
  unfold has_entry. rewrite merge_lookup.
  destruct (a !! key) as [d1|], (b !! key) as [d2|]; simpl;
    try rewrite sum_counts_lookup;
    repeat match goal with |- context [?d !! sub_key] => destruct (d !! sub_key) end;
    simpl; rewrite ?is_Some_alt; tauto.
Qed.

Lemma entry_count (t : FrequencyTable) (key : list nat) (sub_key : nat) :
  has_entry t key sub_key → t !! key ≫= (.!! sub_key) = Some (count t key sub_key).
Proof. unfold has_entry, count. by intros [c ->]. Qed.

(** C3: the table returned by [merge_grams a b] holds, at every
    (context, next) pair that is an entry of [a] or of [b], the sum of
    the two counts (0 for an absent entry); it has no other entry, and
    its contexts are those of [a] and those of [b]. *)
Theorem merge_grams_sums (a b : Ngram) :
  (∀ key sub_key,
     has_entry (chain_frequency a) key sub_key ∨ has_entry (chain_frequency b) key sub_key →
     chain_frequency (merge_grams a b) !! key ≫= (.!! sub_key)
     = Some (count (chain_frequency a) key sub_key
             + count (chain_frequency b) key sub_key)%Z) ∧
  (∀ key sub_key,
     has_entry (chain_frequency (merge_grams a b)) key sub_key →
     has_entry (chain_frequency a) key sub_key ∨ has_entry (chain_frequency b) key sub_key) ∧
  (∀ key,
     is_Some (chain_frequency (merge_grams a b) !! key) ↔
     is_Some (chain_frequency a !! key) ∨ is_Some (chain_frequency b !! key)).
Proof.
  rewrite merge_grams_merge. split_and!.
  - intros key sub_key Hin. rewrite <- count_merge.
    by apply entry_count, has_entry_merge.
  - intros key sub_key. by rewrite has_entry_merge.
  - intros key. rewrite merge_lookup.
    destruct (chain_frequency a !! key), (chain_frequency b !! key); simpl;
      rewrite ?is_Some_alt; tauto.
Qed.

Lemma total_cons (g : Ngram) (models : list Ngram) :
  total (g :: models) = merge (chain_frequency g) (total models).
Proof. reflexivity. Qed.

Lemma foldl_merge_grams (g : Ngram) (models : list Ngram) :
  chain_frequency (foldl merge_grams g models)
  = merge (chain_frequency g) (total models).
Proof.
  revert g. induction models as [|m models IH]; intros g; cbn [foldl].
  - by rewrite merge_empty_r.
  - by rewrite IH, merge_grams_merge, total_cons, merge_assoc.
Qed.

(** The sum of a list of tables does not depend on their order. *)
Lemma total_Permutation (models models' : list Ngram) :
  models ≡ₚ models' → total models = total models'.
Proof.
  induction 1 as [|g l l' _ IH|g1 g2 l|l1 l2 l3 _ IH1 _ IH2].
  - done.
  - by rewrite !total_cons, IH.
  - rewrite !total_cons, <- !merge_assoc.
    by rewrite (merge_comm (chain_frequency g2)).
  - by rewrite IH1.
Qed.

(** C4: [merge_grams] is associative and commutative on contents: the
    three ways of merging [A], [B], [C] give the same table; hence the
    fold of a list of tables into a table gives the same contents in
    whatever order the tables come. *)
Theorem merge_grams_assoc_comm (A B C : Ngram) :
  chain_frequency (merge_grams (merge_grams A B) C)
  = chain_frequency (merge_grams A (merge_grams B C)) ∧
  chain_frequency (merge_grams A (merge_grams B C))
  = chain_frequency (merge_grams (merge_grams B A) C) ∧
  ∀ models models',
    models ≡ₚ models' →
    chain_frequency (foldl merge_grams A models)
    = chain_frequency (foldl merge_grams A models').
Proof.
  rewrite !merge_grams_merge. split_and!.
  - apply merge_assoc.
  - by rewrite <- merge_assoc, (merge_comm (chain_frequency A)).
  - intros models models' Hp.
    by rewrite !foldl_merge_grams, (total_Permutation models models').
Qed.

(** C8: a table with a non-zero count differs from its merge with
    itself, which doubles every count. *)
Theorem merge_grams_not_idempotent (T : Ngram) :
  (∃ key sub_key, count (chain_frequency T) key sub_key ≠ 0%Z) →
  chain_frequency (merge_grams T T) ≠ chain_frequency T ∧
  ∀ key sub_key,
    count (chain_frequency (merge_grams T T)) key sub_key
    = (2 * count (chain_frequency T) key sub_key)%Z.
Proof.
  intros (key & sub_key & Hc). rewrite merge_grams_merge. split.
  - intros Heq.
    pose proof (count_merge (chain_frequency T) (chain_frequency T) key sub_key) as Hsum.
    rewrite Heq in Hsum. lia.
  - intros k s. rewrite count_merge. lia.
Qed.

Lemma merge_grams_not_idempotent_witness :
  chain_frequency (merge_grams table_a table_a) ≠ chain_frequency table_a ∧
  ∀ key sub_key,
    count (chain_frequency (merge_grams table_a table_a)) key sub_key
    = (2 * count (chain_frequency table_a) key sub_key)%Z.
Proof.
  apply (merge_grams_not_idempotent table_a).
  exists [0], 1. vm_compute. discriminate.
Defined.

(** ** The tree reduction and the linear fold *)

Lemma total_pairs (models : list Ngram) : total (pairs models) = total models.
Proof.
  induction models as [|model|model1 model2 rest IH] using pairs_ind;
    cbn [pairs]; auto.
  by rewrite !total_cons, IH, merge_grams_merge, merge_assoc.
Qed.

Lemma pairs_nil (models : list Ngram) : pairs models = [] → models = [].
Proof. by destruct models as [|? [|? ?]]. Qed.

Lemma merge_models_incrementally_total (models : list Ngram) :
  models ≠ [] →
  ∃ g, merge_models_incrementally models = Ok g ∧ chain_frequency g = total models.
Proof.
  funelim (merge_models_incrementally models); intros Hne;
    try match goal with
    | Hr : pair_round ?l = Raise _ |- _ =>
        exfalso; pose proof Hr as Hr'; rewrite pair_round_pairs in Hr';
        discriminate Hr'
    | Hr : pair_round ?l = Ok ?new |- _ =>
        assert (new = pairs l) as Hnew
          by (pose proof Hr as Hr'; rewrite pair_round_pairs in Hr';
              by injection Hr')
    end.
  - match goal with
    | Hb : bool_decide _ = false |- _ =>
        pose proof (bool_decide_eq_false_1 _ Hb) as Hlen
    end.
    destruct models_to_merge as [|g [|? ?]]; [done| |simpl in Hlen; lia].
    exists g. split; [done|]. by rewrite total_cons, merge_empty_r.
  - rewrite <- total_pairs, <- Hnew.
    match goal with IH : _ → ∃ g, _ |- _ => apply IH end.
    rewrite Hnew. intros Hnil. by apply pairs_nil in Hnil.
Qed.


(** On an empty list no round runs and [models_to_merge[0]] raises. *)
Example merge_models_incrementally_empty :
  merge_models_incrementally [] = Raise IndexError.
Proof. reflexivity. Qed.

(** ** [merge_grams] on the objects computes [merge_grams] on the values *)

Lemma sum_counts_empty_r (d : NextCounts) : sum_counts d ∅ = d.
Proof.
  apply map_eq. intros s. rewrite sum_counts_lookup, lookup_empty.
  by destruct (d !! s).
Qed.

Lemma merge_sub_step_sum_counts (i : nat) (x : Z) (d m : NextCounts) :
  m !! i = None →
  merge_sub_step i x (sum_counts d m) = sum_counts d (<[i := x]> m).
Proof.
  intros Hi. apply map_eq. intros s.
  rewrite merge_sub_step_lookup, !sum_counts_lookup, lookup_insert, Hi.
  destruct (decide (i = s)) as [->|Hne]; [|done].
  destruct (d !! s); simpl; f_equal; lia.
Qed.

Lemma inplace_dict_at_set_dict (a d1 : nat) (d : NextCounts) (h : InPlace.Heap) :
  InPlace.dict_at (InPlace.set_dict d1 d h) a
  = if decide (a = d1) then d else InPlace.dict_at h a.
Proof.
  unfold InPlace.dict_at, InPlace.set_dict. simpl. rewrite lookup_insert.
  destruct (decide (d1 = a)) as [->|Hne].
  - by rewrite decide_True.
  - by rewrite decide_False by congruence.
Qed.

Lemma inplace_merge_sub_step (d1 i : nat) (x : Z) (h : InPlace.Heap) :
  InPlace.merge_sub_step d1 i x h
  = InPlace.set_dict d1 (merge_sub_step i x (InPlace.dict_at h d1)) h.
Proof.
  unfold InPlace.merge_sub_step, merge_sub_step.
  by destruct (InPlace.dict_at h d1 !! i).
Qed.

(** The inner loop adds the counts of the iterated dictionary to the
    dictionary at [d1] and touches nothing else. *)
Lemma inplace_inner_loop (d1 : nat) (snap : NextCounts) (h : InPlace.Heap) :
  InPlace.tables (map_fold (InPlace.merge_sub_step d1) h snap) = InPlace.tables h ∧
  ∀ a, InPlace.dict_at (map_fold (InPlace.merge_sub_step d1) h snap) a
       = if decide (a = d1) then sum_counts (InPlace.dict_at h d1) snap
         else InPlace.dict_at h a.
Proof.
  apply (map_fold_weak_ind (λ r m,
    InPlace.tables r = InPlace.tables h ∧
    ∀ a, InPlace.dict_at r a
         = if decide (a = d1) then sum_counts (InPlace.dict_at h d1) m
           else InPlace.dict_at h a)).
  - split; [done|]. intros a. rewrite sum_counts_empty_r.
    by destruct (decide (a = d1)) as [->|].
  - intros i x m r Hi [Ht Hd]. rewrite inplace_merge_sub_step. split; [done|].
    intros a. rewrite inplace_dict_at_set_dict.
    destruct (decide (a = d1)) as [->|Hne].
    + specialize (Hd d1). rewrite decide_True in Hd by done.
      rewrite Hd. by apply merge_sub_step_sum_counts.
    + specialize (Hd a). by rewrite decide_False in Hd.
Qed.

Lemma inplace_table_at_set_table (g gram : nat) (cf : gmap (list nat) nat) (h : InPlace.Heap) :
  InPlace.table_at (InPlace.set_table gram cf h) g
  = if decide (g = gram) then cf else InPlace.table_at h g.
Proof.
  unfold InPlace.table_at, InPlace.set_table. simpl. rewrite lookup_insert.
  destruct (decide (gram = g)) as [->|Hne].
  - by rewrite decide_True.
  - by rewrite decide_False by congruence.
Qed.

Lemma inplace_table_at_tables (h h' : InPlace.Heap) (g : nat) :
  InPlace.tables h' = InPlace.tables h → InPlace.table_at h' g = InPlace.table_at h g.
Proof. unfold InPlace.table_at. by intros ->. Qed.

Lemma inplace_outer_loop (h : InPlace.Heap) (gram1 : nat) (cf2 : gmap (list nat) nat) :
  let cf1 := InPlace.table_at h gram1 in
  (∀ k k' a, cf1 !! k = Some a → cf1 !! k' = Some a → k = k') →
  (∀ k k' a, cf1 !! k = Some a → cf2 !! k' = Some a → k = k') →
  inplace_after h gram1 cf2 (map_fold (InPlace.merge_step gram1) h cf2).
Proof.
  intros cf1 Hinj. revert cf2.
  apply (map_fold_weak_ind (λ r m,
    (∀ k k' a, cf1 !! k = Some a → m !! k' = Some a → k = k') →
    inplace_after h gram1 m r)).
  - intros _. unfold inplace_after. fold cf1. split_and!.
    + by rewrite (right_id_L ∅ (∪)).
    + intros k a v _ Hm. by rewrite lookup_empty in Hm.
    + done.
    + done.
  - intros i x m r Hi IH Hsh.
    destruct IH as (Ht & Hmod & Hsame & Hother).
    { intros k k' a Hk Hk'. apply (Hsh k k' a Hk).
      rewrite lookup_insert_ne; [done|]. intros <-. congruence. }
    fold cf1 in Ht, Hmod, Hsame. unfold inplace_after. fold cf1.
    unfold InPlace.merge_step. rewrite Ht.
    rewrite (lookup_union_l cf1 m i Hi).
    destruct (cf1 !! i) as [d1|] eqn:Hcf1.
    + (* the context is in [gram1]: the inner loop *)
      destruct (inplace_inner_loop d1 (InPlace.dict_at r x) r) as [Htab Hdict].
      assert (InPlace.dict_at r d1 = InPlace.dict_at h d1) as Hd1.
      { apply Hsame. intros k v Hk Hv.
        assert (k = i) as -> by (by apply (Hinj k i d1)). congruence. }
      assert (InPlace.dict_at r x = InPlace.dict_at h x) as Hx.
      { apply Hsame. intros k v Hk Hv.
        assert (k = i) as -> by (apply (Hsh k i x Hk); by rewrite lookup_insert_eq).
        congruence. }
      split_and!.
      * rewrite (inplace_table_at_tables r) by done. rewrite Ht.
        apply map_eq. intros k. rewrite !lookup_union, lookup_insert.
        destruct (decide (i = k)) as [<-|Hne]; [|done].
        rewrite Hcf1, Hi. done.
      * intros k a v Hk Hv. rewrite Hdict.
        destruct (decide (i = k)) as [<-|Hne].
        -- rewrite lookup_insert_eq in Hv. injection Hv as <-.
           rewrite Hcf1 in Hk. injection Hk as <-.
           rewrite decide_True by done. by rewrite Hd1, Hx.
        -- rewrite lookup_insert_ne in Hv by done.
           rewrite decide_False; [by apply (Hmod k)|].
           intros ->. apply Hne. by apply (Hinj i k d1).
      * intros a Hfree. rewrite Hdict.
        rewrite decide_False.
        -- apply Hsame. intros k v Hk Hv. apply (Hfree k v Hk).
           rewrite lookup_insert_ne; [done|]. intros <-. congruence.
        -- intros ->. apply (Hfree i x Hcf1). by rewrite lookup_insert_eq.
      * intros g Hg. rewrite (inplace_table_at_tables r) by done. by apply Hother.
    + (* the context is new: the inner dictionary of [gram2] is stored *)
      split_and!.
      * rewrite inplace_table_at_set_table, decide_True by done.
        by apply insert_union_r.
      * intros k a v Hk Hv.
        rewrite lookup_insert_ne in Hv by congruence.
        by apply (Hmod k).
      * intros a Hfree. apply Hsame. intros k v Hk Hv. apply (Hfree k v Hk).
        rewrite lookup_insert_ne; [done|]. congruence.
      * intros g Hg. rewrite inplace_table_at_set_table, decide_False by done.
        by apply Hother.
Qed.

(** On objects that share no inner dictionary across contexts, the
    in-place [merge_grams] returns its first argument, whose table then
    has the contents [merge_grams] computes on the values: the union
    with sum of the contents before the call. *)
Lemma inplace_merge_grams_content (h : InPlace.Heap) (gram1 gram2 : nat) :
  InPlace.unshared h gram1 gram2 →
  (InPlace.merge_grams h gram1 gram2).1 = gram1 ∧
  InPlace.content (InPlace.merge_grams h gram1 gram2).2 gram1
  = merge (InPlace.content h gram1) (InPlace.content h gram2).
Proof.
  intros [Hinj Hsh]. split; [done|].
  destruct (inplace_outer_loop h gram1 (InPlace.table_at h gram2) Hinj Hsh)
    as (Ht & Hmod & Hsame & _).
  unfold InPlace.merge_grams, InPlace.content. cbn [snd].
  apply map_eq. intros k.
  rewrite merge_lookup, !lookup_fmap, Ht, lookup_union.
  destruct (InPlace.table_at h gram1 !! k) as [a|] eqn:H1,
           (InPlace.table_at h gram2 !! k) as [v|] eqn:H2; simpl.
  - f_equal. by apply (Hmod k).
  - f_equal. apply Hsame. intros k' v' Hk Hv.
    assert (k' = k) as -> by (by apply (Hinj k' k a)). congruence.
  - f_equal. apply Hsame. intros k' v' Hk Hv.
    assert (k' = k) as -> by (by apply (Hsh k' k v)). congruence.
  - done.
Qed.

(** An object merged with itself: every count doubles. *)
Lemma inplace_merge_grams_self (h : InPlace.Heap) (gram : nat) :
  (∀ k k' a, InPlace.table_at h gram !! k = Some a →
             InPlace.table_at h gram !! k' = Some a → k = k') →
  InPlace.content (InPlace.merge_grams h gram gram).2 gram
  = merge (InPlace.content h gram) (InPlace.content h gram).
Proof. intros Hinj. by apply inplace_merge_grams_content. Qed.

(** *** What a merge leaves alone *)

Lemma inplace_in_footprint (h : InPlace.Heap) (gram a : nat) :
  a ∈ InPlace.footprint h gram ↔ ∃ k, InPlace.table_at h gram !! k = Some a.
Proof. unfold InPlace.footprint. apply elem_of_map_img. Qed.

Lemma inplace_disjoint_unshared (h : InPlace.Heap) (gram1 gram2 : nat) :
  InPlace.unique_dicts h gram1 →
  InPlace.footprint h gram1 ## InPlace.footprint h gram2 →
  InPlace.unshared h gram1 gram2.
Proof.
  intros Hinj Hdisj. split; [done|]. intros k k' a Hk Hk'.
  exfalso. apply (proj1 (elem_of_disjoint _ _) Hdisj a);
    apply inplace_in_footprint; eauto.
Qed.

(** The table of [gram1] gains the contexts of [gram2], with the inner
    dictionaries of [gram2] themselves; the other tables, and the inner
    dictionaries that are not of [gram1], are as they were. *)
Lemma inplace_merge_grams_frame (h : InPlace.Heap) (gram1 gram2 : nat) :
  InPlace.unshared h gram1 gram2 →
  InPlace.table_at (InPlace.merge_grams h gram1 gram2).2 gram1
  = InPlace.table_at h gram1 ∪ InPlace.table_at h gram2 ∧
  (∀ g, g ≠ gram1 →
     InPlace.table_at (InPlace.merge_grams h gram1 gram2).2 g = InPlace.table_at h g) ∧
  (∀ a, a ∉ InPlace.footprint h gram1 →
     InPlace.dict_at (InPlace.merge_grams h gram1 gram2).2 a = InPlace.dict_at h a).
Proof.
  intros [Hinj Hsh].
  destruct (inplace_outer_loop h gram1 (InPlace.table_at h gram2) Hinj Hsh)
    as (Ht & _ & Hsame & Hother).
  split_and!; [done|done|].
  intros a Ha. apply Hsame. intros k v Hk _. apply Ha.
  apply inplace_in_footprint. eauto.
Qed.

Lemma inplace_content_ext (h h' : InPlace.Heap) (g : nat) :
  InPlace.table_at h' g = InPlace.table_at h g →
  (∀ a, a ∈ InPlace.footprint h g → InPlace.dict_at h' a = InPlace.dict_at h a) →
  InPlace.content h' g = InPlace.content h g.
Proof.
  intros Ht Hd. unfold InPlace.content. rewrite Ht.
  apply map_fmap_ext. intros k a Hk. apply Hd.
  apply inplace_in_footprint. eauto.
Qed.

Lemma inplace_footprint_ext (h h' : InPlace.Heap) (g : nat) :
  InPlace.table_at h' g = InPlace.table_at h g →
  InPlace.footprint h' g = InPlace.footprint h g.
Proof. unfold InPlace.footprint. by intros ->. Qed.

Lemma inplace_separate_ext (h h' : InPlace.Heap) (models : list nat) :
  (∀ g, g ∈ models → InPlace.table_at h' g = InPlace.table_at h g) →
  InPlace.separate h models → InPlace.separate h' models.
Proof.
  induction models as [|g models IH]; intros Ht; [done|].
  cbn [InPlace.separate]. intros (Hu & Hnin & Hdisj & Hsep).
  assert (InPlace.table_at h' g = InPlace.table_at h g) as Hg
    by (apply Ht; by left).
  split_and!.
  - unfold InPlace.unique_dicts. rewrite Hg. exact Hu.
  - done.
  - intros g' Hg'. rewrite (inplace_footprint_ext h h' g) by done.
    rewrite (inplace_footprint_ext h h' g'); [by apply Hdisj|].
    apply Ht. by right.
  - apply IH; [|done]. intros g' Hg'. apply Ht. by right.
Qed.

Lemma inplace_total_ext (h h' : InPlace.Heap) (models : list nat) :
  (∀ g, g ∈ models → InPlace.content h' g = InPlace.content h g) →
  InPlace.total h' models = InPlace.total h models.
Proof.
  induction models as [|g models IH]; intros Hc; [done|].
  unfold InPlace.total. cbn [foldr]. fold (InPlace.total h' models).
  fold (InPlace.total h models).
  rewrite IH, Hc; [done|by left|]. intros g' Hg'. apply Hc. by right.
Qed.

Lemma inplace_unique_union (h h' : InPlace.Heap) (gram1 gram2 : nat) :
  InPlace.table_at h' gram1 = InPlace.table_at h gram1 ∪ InPlace.table_at h gram2 →
  InPlace.unique_dicts h gram1 → InPlace.unique_dicts h gram2 →
  InPlace.footprint h gram1 ## InPlace.footprint h gram2 →
  InPlace.unique_dicts h' gram1.
Proof.
  intros Ht H1 H2 Hdisj k k' a. rewrite Ht.
  intros [Hk|[_ Hk]]%lookup_union_Some_raw [Hk'|[_ Hk']]%lookup_union_Some_raw.
  - by apply (H1 k k' a).
  - exfalso. apply (proj1 (elem_of_disjoint _ _) Hdisj a);
      apply inplace_in_footprint; eauto.
  - exfalso. apply (proj1 (elem_of_disjoint _ _) Hdisj a);
      apply inplace_in_footprint; eauto.
  - by apply (H2 k k' a).
Qed.

Lemma inplace_footprint_union (h h' : InPlace.Heap) (gram1 gram2 a : nat) :
  InPlace.table_at h' gram1 = InPlace.table_at h gram1 ∪ InPlace.table_at h gram2 →
  a ∈ InPlace.footprint h' gram1 →
  a ∈ InPlace.footprint h gram1 ∨ a ∈ InPlace.footprint h gram2.
Proof.
  intros Ht [k Hk]%inplace_in_footprint. rewrite Ht in Hk.
  apply lookup_union_Some_raw in Hk as [Hk|[_ Hk]];
    [left|right]; apply inplace_in_footprint; eauto.
Qed.

(** *** The tree reduction on separate objects *)

Lemma disjoint_elem (X Y : gset nat) (a : nat) : X ## Y → a ∈ X → a ∈ Y → False.
Proof. intros Hdisj. by apply elem_of_disjoint. Qed.

Lemma inplace_pairs_ok (models : list nat) (h : InPlace.Heap) :
  InPlace.separate h models →
  inplace_round_ok h models (InPlace.pairs h models).2 (InPlace.pairs h models).1.
Proof.
  revert h.
  induction models as [|model|model1 model2 rest IH] using InPlace.inplace_pairs_ind;
    intros h Hsep.
  - unfold inplace_round_ok. cbn [InPlace.pairs fst snd]. split_and!; eauto.
  - unfold inplace_round_ok. cbn [InPlace.pairs fst snd]. split_and!; eauto.
  - rewrite InPlace.inplace_pairs_cons. cbn [fst snd].
    destruct Hsep as (Hu1 & Hnin1 & Hd1 & Hu2 & Hnin2 & Hd2 & Hrest).
    set (h1 := (InPlace.merge_grams h model1 model2).2).
    assert (model1 ≠ model2) as Hne by (intros ->; apply Hnin1; by left).
    assert (InPlace.footprint h model1 ## InPlace.footprint h model2) as H12
      by (apply Hd1; by left).
    assert (InPlace.unshared h model1 model2) as Hun
      by by apply inplace_disjoint_unshared.
    assert (∀ g, g ∈ rest → InPlace.footprint h model1 ## InPlace.footprint h g)
      as Hd1r by (intros g Hg; apply Hd1; by right).
    destruct (inplace_merge_grams_frame h model1 model2 Hun) as (Ht1 & Hto & Hdo).
    destruct (inplace_merge_grams_content h model1 model2 Hun) as [_ Hc1].
    fold h1 in Ht1, Hto, Hdo, Hc1.
    (* the objects of [rest] are untouched by the first merge *)
    assert (∀ g, g ∈ rest → InPlace.table_at h1 g = InPlace.table_at h g) as Htr.
    { intros g Hg. apply Hto. intros ->. apply Hnin1. by right. }
    assert (∀ g, g ∈ rest → InPlace.content h1 g = InPlace.content h g) as Hcr.
    { intros g Hg. apply inplace_content_ext; [by apply Htr|].
      intros a Ha. apply Hdo. intros Ha1.
      apply (disjoint_elem _ _ a (Hd1r g Hg) Ha1 Ha). }
    assert (∀ a, a ∈ InPlace.footprint h1 model1 →
                 ∀ g, g ∈ rest → a ∉ InPlace.footprint h1 g) as Hfresh.
    { intros a Ha g Hg Hag.
      rewrite (inplace_footprint_ext h h1 g) in Hag by by apply Htr.
      apply (inplace_footprint_union h h1 model1 model2 a Ht1) in Ha as [Ha|Ha].
      - apply (disjoint_elem _ _ a (Hd1r g Hg) Ha Hag).
      - apply (disjoint_elem _ _ a (Hd2 g Hg) Ha Hag). }
    destruct (IH h1) as (Hsub & Hsep' & Htot & Hframe_t & Hframe_d & Hfp).
    { by apply (inplace_separate_ext h). }
    set (h2 := (InPlace.pairs h1 rest).2) in *.
    set (new_models := (InPlace.pairs h1 rest).1) in *.
    assert (model1 ∉ rest) as Hnin1r by (intros Hin; apply Hnin1; by right).
    assert (InPlace.table_at h2 model1 = InPlace.table_at h1 model1) as Ht2
      by by apply Hframe_t.
    unfold inplace_round_ok. split_and!.
    + intros g [->|Hg]%elem_of_cons; [by left|]. right. right. by apply Hsub.
    + cbn [InPlace.separate]. split_and!.
      * apply (inplace_unique_union h h2 model1 model2); try done.
        by rewrite Ht2.
      * intros Hin. apply Hnin1r. by apply Hsub.
      * intros g' Hg'. apply elem_of_disjoint. intros a Ha Ha'.
        rewrite (inplace_footprint_ext h1 h2 model1) in Ha by done.
        destruct (Hfp g' a Hg' Ha') as (g & Hg & Hag).
        by apply (Hfresh a Ha g Hg).
      * done.
    + unfold InPlace.total. cbn [foldr].
      fold (InPlace.total h2 new_models). fold (InPlace.total h rest).
      rewrite Htot, (inplace_total_ext h h1 rest Hcr).
      rewrite (inplace_content_ext h1 h2 model1); [|done|].
      * by rewrite Hc1, merge_assoc.
      * intros a Ha. apply Hframe_d. by apply Hfresh.
    + intros c Hc. rewrite Hframe_t.
      * apply Hto. intros ->. apply Hc. by left.
      * intros Hin. apply Hc. right. by right.
    + intros a Ha. rewrite Hframe_d.
      * apply Hdo. apply Ha. by left.
      * intros g Hg. rewrite (inplace_footprint_ext h h1 g) by by apply Htr.
        apply Ha. right. by right.
    + intros g' a [->|Hg']%elem_of_cons Ha.
      * rewrite (inplace_footprint_ext h1 h2 model1) in Ha by done.
        apply (inplace_footprint_union h h1 model1 model2 a Ht1) in Ha as [Ha|Ha].
        -- exists model1. split; [by left|done].
        -- exists model2. split; [right; by left|done].
      * destruct (Hfp g' a Hg' Ha) as (g & Hg & Hag).
        exists g. split; [right; by right|].
        by rewrite <- (inplace_footprint_ext h h1 g) by by apply Htr.
Qed.

Lemma inplace_pairs_nil (h : InPlace.Heap) (models : list nat) :
  (InPlace.pairs h models).1 = [] → models = [].
Proof.
  destruct models as [|model1 [|model2 rest]]; [done..|].
  by rewrite InPlace.inplace_pairs_cons.
Qed.

(** On separate objects the in-place tree reduction returns an object
    whose table holds the sum of the contents the objects had. *)
Lemma inplace_merge_models_incrementally_total (h : InPlace.Heap) (models : list nat) :
  InPlace.separate h models → models ≠ [] →
  ∃ g h', InPlace.merge_models_incrementally h models = Ok (g, h') ∧
          InPlace.content h' g = InPlace.total h models.
Proof.
  funelim (InPlace.merge_models_incrementally h models); intros Hsep Hne;
    try match goal with
    | Hr : InPlace.pair_round _ _ = Raise _ |- _ =>
        exfalso; pose proof Hr as Hr';
        rewrite InPlace.inplace_pair_round_pairs in Hr'; discriminate Hr'
    | Hr : InPlace.pair_round ?h ?l = Ok ?new |- _ =>
        assert (new = InPlace.pairs h l) as Hnew
          by (pose proof Hr as Hr';
              rewrite InPlace.inplace_pair_round_pairs in Hr';
              by injection Hr')
    end.
  - destruct models_to_merge as [|g [|? ?]]; [done| |].
    + exists g, h. split; [done|].
      unfold InPlace.total. cbn [foldr]. by rewrite merge_empty_r.
    + exfalso.
      match goal with
      | Hb : bool_decide _ = false |- _ =>
          pose proof (bool_decide_eq_false_1 _ Hb) as Hlen
      end.
      simpl in Hlen. lia.
  - destruct (inplace_pairs_ok models_to_merge h Hsep)
      as (_ & Hsep' & Htot & _).
    rewrite <- Hnew in Hsep', Htot. cbn [fst snd] in Hsep', Htot.
    rewrite <- Htot.
    match goal with IH : _ → _ → ∃ g h', _ |- _ => apply IH end; [done|].
    intros ->. 
    assert ((InPlace.pairs h models_to_merge).1 = []) as Hnil by by rewrite <- Hnew.
    by apply inplace_pairs_nil in Hnil.
Qed.

Lemma inplace_total_values (h : InPlace.Heap) (models : list nat) :
  InPlace.total h models = total (value_of h <$> models).
Proof.
  induction models as [|g models IH]; [done|].
  unfold InPlace.total, total. cbn [foldr fmap list_fmap].
  fold (InPlace.total h models). fold (total (value_of h <$> models)).
  by rewrite IH.
Qed.

(** The in-place tree reduction of separate objects refines
    [merge_models_incrementally] on their values. *)
Lemma inplace_merge_models_incrementally_refines (h : InPlace.Heap) (models : list nat) :
  InPlace.separate h models → models ≠ [] →
  ∃ g h' v,
    InPlace.merge_models_incrementally h models = Ok (g, h') ∧
    merge_models_incrementally (value_of h <$> models) = Ok v ∧
    InPlace.content h' g = chain_frequency v.
Proof.
  intros Hsep Hne.
  destruct (inplace_merge_models_incrementally_total h models Hsep Hne)
    as (g & h' & Hrun & Hc).
  destruct (merge_models_incrementally_total (value_of h <$> models))
    as (v & Hv & Hcv).
  { by destruct models. }
  exists g, h', v. split_and!; [done..|].
  by rewrite Hc, Hcv, inplace_total_values.
Qed.

Lemma total_fmap (models : list Ngram) :
  total models = foldr merge ∅ (chain_frequency <$> models).
Proof.
  induction models as [|g models IH]; [done|].
  rewrite total_cons, IH. reflexivity.
Qed.

Lemma inplace_total_fmap (h : InPlace.Heap) (models : list nat) :
  InPlace.total h models = foldr merge ∅ (InPlace.content h <$> models).
Proof.
  induction models as [|g models IH]; [done|].
  unfold InPlace.total. cbn [foldr fmap list_fmap].
  fold (InPlace.total h models). by rewrite IH.
Qed.

(** *** The sharing, on the example store *)

(** Merging into a freshly constructed object stores the inner
    dictionaries of the operand themselves: a later merge into the
    result is seen through the operand too. *)
Example inplace_operand_is_shared :
  InPlace.table_at (InPlace.merge_grams example_heap 2 1).2 2
  = InPlace.table_at example_heap 1 ∧
  InPlace.content
    (InPlace.merge_grams (InPlace.merge_grams example_heap 2 1).2 2 0).2 1
  ≠ InPlace.content example_heap 1.
Proof. split; [by vm_compute|]. vm_compute. discriminate. Qed.

(** A list that names one object twice is not a list of separate
    objects, and the reduction in place then differs from the one on the
    values: the hypothesis [InPlace.separate] cannot be dropped. *)
Example inplace_repeated_object :
  ¬ InPlace.separate example_heap [0; 1; 0] ∧
  ∃ g h',
    InPlace.merge_models_incrementally example_heap [0; 1; 0] = Ok (g, h') ∧
    count (InPlace.content h' g) [1] 2 = 2%Z ∧
    count (total (value_of example_heap <$> [0; 1; 0])) [1] 2 = 1%Z.
Proof.
  split.
  - intros (_ & Hnin & _). apply Hnin. right. by left.
  - eexists _, _. split; [by vm_compute|]. split; by vm_compute.
Qed.

(** ** [preprocessing] *)

Lemma lstrip_split (s : pystr) :
  ∃ l, s = l ++ lstrip s ∧ all_space l ∧ no_leading_space (lstrip s).
Proof.
  induction s as [|c s (l & Hs & Hl & Hm)]; simpl.
  - exists []. split_and!; [done|constructor|]. by intros c.
  - destruct (isspace c) eqn:Hc.
    + exists (c :: l). split_and!; [by rewrite Hs at 1|by constructor|done].
    + exists []. split_and!; [done|constructor|]. intros c' [= <-]. done.
Qed.

Lemma rstrip_split (s : pystr) :
  ∃ r, s = rstrip s ++ r ∧ all_space r ∧ no_trailing_space (rstrip s).
Proof.
  destruct (lstrip_split (reverse s)) as (l & Hs & Hl & Hm).
  exists (reverse l). unfold rstrip. split_and!.
  - by rewrite <- reverse_app, <- Hs, reverse_involutive.
  - by apply Forall_reverse.
  - intros c. rewrite last_reverse. apply Hm.
Qed.

(** [strip] removes exactly the leading and the trailing whitespace. *)
Lemma strip_split (s : pystr) :
  ∃ l r, s = l ++ strip s ++ r ∧ all_space l ∧ all_space r ∧
         no_leading_space (strip s) ∧ no_trailing_space (strip s).
Proof.
  destruct (lstrip_split s) as (l & Hs & Hl & Hm).
  destruct (rstrip_split (lstrip s)) as (r & Hs' & Hr & Hm').
  exists l, r. unfold strip. split_and!; try done.
  - by rewrite <- Hs'.
  - intros c Hc. apply Hm. rewrite Hs'.
    destruct (rstrip (lstrip s)); [done|]. exact Hc.
Qed.

Lemma replace_lookup (old new : N) (s : pystr) (i : nat) :
  replace old new s !! i = (λ c, if (c =? old)%N then new else c) <$> s !! i.
Proof. unfold replace. apply list_lookup_fmap. Qed.

Lemma preprocessing_unfold (text : pystr) :
  preprocessing text = replace newline space (strip text).
Proof. reflexivity. Qed.

(** C9: [preprocessing] returns its argument without the leading and
    trailing whitespace and with every newline replaced by one space;
    nothing else changes, so that runs of whitespace inside keep their
    length, and the joined tokens are not what is returned.  [main]
    applies it to every document first: the local [data], from which the
    vocabulary is built and every order trained, is the list of the
    preprocessed documents. *)
Theorem preprocessing_strips_and_replaces `{!Modules Vocabulary} :
  (∀ text : pystr,
     ∃ l m r,
       text = l ++ m ++ r ∧ all_space l ∧ all_space r ∧
       no_leading_space m ∧ no_trailing_space m ∧
       length (preprocessing text) = length m ∧
       ∀ i, preprocessing text !! i
            = (λ c, if (c =? newline)%N then space else c) <$> m !! i) ∧
  preprocessing (lit "a  b") = lit "a  b" ∧
  join [space] (split (lit "a  b")) = lit "a b" ∧
  (∀ config raw w,
     startup config raw w =
     match load_or_create_vocabulary (preprocessing <$> raw) (generate_name config) w with
     | (Ok vocab, w') =>
         (Ok {| vocab := Some vocab;
                data := Some (preprocessing <$> raw);
                distributed_vocab :=
                  if dask_distributed config then Some vocab else None |}, w')
     | (Raise e, w') => (Raise e, w')
     end) ∧
  (∀ config raw raw' w,
     preprocessing <$> raw = preprocessing <$> raw' →
     main config raw w = main config raw' w).
Proof.
  split_and!.
  - intros text. destruct (strip_split text) as (l & r & Ht & Hl & Hr & Hm & Hm').
    exists l, (strip text), r. split_and!; try done.
    + rewrite preprocessing_unfold. unfold replace. apply length_fmap.
    + intros i. rewrite preprocessing_unfold. apply replace_lookup.
  - reflexivity.
  - reflexivity.
  - intros config raw w. unfold startup.
    change (?m ≫= ?f) with (Run_bind f m). unfold Run_bind.
    by destruct (load_or_create_vocabulary _ _ w) as [[vocab|e] w'].
  - intros config raw raw' w Heq. unfold main, startup. by rewrite Heq.
Qed.

(** ** The orchestration *)

Section orchestration.
Context {Vocabulary : Type} `{!Modules Vocabulary}.

Implicit Types (w : World Vocabulary) (l : Locals Vocabulary).

Ltac unfold_run :=
  unfold mbind, mret, Run_mbind, Run_mret, Run_bind, Run_ret, raise, lift in *.

Lemma bind_Ok {A B} (m : Run Vocabulary A) (f : A → Run Vocabulary B) w a w' :
  m w = (Ok a, w') → (m ≫= f) w = f a w'.
Proof. unfold_run. by intros ->. Qed.

Lemma bind_Raise {A B} (m : Run Vocabulary A) (f : A → Run Vocabulary B) w e w' :
  m w = (Raise e, w') → (m ≫= f) w = (Raise e, w').
Proof. unfold_run. by intros ->. Qed.

Lemma set_temp_set_temp f g w : set_temp f (set_temp g w) = set_temp (f ∘ g) w.
Proof. by destruct w. Qed.

(** *** Clearing the staging folder *)

Lemma lookup_foldl_delete (paths : list nat) (t : gmap nat Ngram) (k : nat) :
  foldl (λ t p, delete p t) t paths !! k
  = if decide (k ∈ paths) then None else t !! k.
Proof.
  revert t. induction paths as [|p paths IH]; intros t; cbn [foldl].
  - destruct (decide (k ∈ [])) as [Hin|_]; [by apply elem_of_nil in Hin|done].
  - rewrite IH, lookup_delete.
    destruct (decide (p = k)) as [->|Hne].
    + rewrite (decide_True (P := k ∈ k :: paths)) by by left.
      by destruct (decide (k ∈ paths)).
    + destruct (decide (k ∈ paths)) as [H1|H1].
      * by rewrite decide_True by by right.
      * rewrite decide_False; [done|]. by intros [->|?]%elem_of_cons.
Qed.

Lemma for_each_remove (paths : list nat) w :
  NoDup paths → (∀ p, p ∈ paths → is_Some (temp w !! p)) →
  for_each paths os_remove_temp w
  = (Ok (), set_temp (λ t, foldl (λ t p, delete p t) t paths) w).
Proof.
  revert w. induction paths as [|p paths IH]; intros w Hnd Hin; simpl.
  - by destruct w.
  - apply NoDup_cons in Hnd as [Hp Hnd].
    destruct (Hin p) as [g Hg]; [set_solver|].
    erewrite bind_Ok; [|unfold os_remove_temp; by rewrite Hg].
    rewrite IH; [by rewrite set_temp_set_temp|done|].
    intros q Hq. simpl. rewrite lookup_delete_ne by set_solver.
    apply Hin. set_solver.
Qed.

Lemma glob_temp_NoDup w : NoDup (map_to_list (temp w)).*1.
Proof. apply NoDup_fst_map_to_list. Qed.

Lemma glob_temp_elem w (p : nat) :
  p ∈ (map_to_list (temp w)).*1 ↔ is_Some (temp w !! p).
Proof.
  rewrite list_elem_of_fmap. split.
  - intros ([q g] & -> & Hin). apply elem_of_map_to_list in Hin. by exists g.
  - intros [g Hg]. exists (p, g). split; [done|]. by apply elem_of_map_to_list.
Qed.

Lemma foldl_delete_all (t : gmap nat Ngram) :
  foldl (λ t p, delete p t) t (map_to_list t).*1 = ∅.
Proof.
  apply map_eq. intros k. rewrite lookup_foldl_delete, lookup_empty.
  case_decide as Hin; [done|].
  destruct (t !! k) as [g|] eqn:Hk; [|done].
  exfalso. apply Hin. apply list_elem_of_fmap. exists (k, g).
  split; [done|]. by apply elem_of_map_to_list.
Qed.

(** [[os.remove(path) for path in glob("data/temp/*.tmp")]] empties the
    staging folder, and cannot fail. *)
Lemma remove_all_temp_spec w :
  remove_all_temp w = (Ok (), set_temp (λ _, ∅) w).
Proof.
  unfold remove_all_temp.
  erewrite bind_Ok; [|reflexivity].
  rewrite for_each_remove.
  - unfold set_temp. by rewrite foldl_delete_all.
  - apply glob_temp_NoDup.
  - intros p. apply glob_temp_elem.
Qed.

(** *** The shard task *)

Lemma train_ngram_partial (n : Z) (text : pystr) (v : Vocabulary) w :
  train_ngram n text v w =
  match partial n v text with
  | Ok gram => (Ok (), stage w gram)
  | Raise e => (Raise e, w)
  end.
Proof.
  unfold train_ngram, partial. unfold_run.
  change (result_mbind ?A ?B ?f ?r) with (result_bind f r). unfold result_bind.
  destruct (chain_to_ids v text) as [ids|e]; [|done].
  by destruct (Ngram_train (Ngram_new (Some n)) ids) as [gram|e].
Qed.

(** The tasks of a local pass, run one after the other: when each
    shard's table can be built, each is staged, in the order of the
    documents. *)
Lemma local_tasks_Ok (n : Z) (v : Vocabulary) (d : list pystr) (grams : list Ngram) w :
  Forall2 (λ text gram, partial n v text = Ok gram) d grams →
  for_each d (λ text, vocab ← load_local "vocab" (Some v);
                      train_ngram n (str text) vocab) w
  = (Ok (), foldl stage w grams).
Proof.
  intros Hall. revert w.
  induction Hall as [|text gram d grams Hp _ IH]; intros w; [done|].
  cbn [for_each foldl].
  erewrite bind_Ok; [apply IH|].
  unfold load_local. erewrite bind_Ok; [|reflexivity].
  unfold str. by rewrite train_ngram_partial, Hp.
Qed.

(** When the table of some shard cannot be built, the pass raises, with
    the output folders as they were. *)
Lemma local_tasks_Raise (n : Z) (v : Vocabulary) (d : list pystr) w :
  Exists (λ text, ∃ e, partial n v text = Raise e) d →
  ∃ e w',
    for_each d (λ text, vocab ← load_local "vocab" (Some v);
                        train_ngram n (str text) vocab) w
    = (Raise e, w') ∧ ngram_dirs w' = ngram_dirs w.
Proof.
  revert w. induction d as [|text d IH]; intros w Hex.
  - by apply Exists_nil in Hex.
  - cbn [for_each].
    assert ((vocab ← load_local "vocab" (Some v); train_ngram n (str text) vocab) w
            = train_ngram n text v w) as Htask by done.
    rewrite train_ngram_partial in Htask.
    destruct (partial n v text) as [gram|e] eqn:Hp.
    + erewrite bind_Ok by exact Htask.
      apply Exists_cons in Hex as [[e He]|Hex]; [congruence|].
      destruct (IH (stage w gram) Hex) as (e & w' & Hrun & Hdirs).
      by exists e, w'.
    + erewrite bind_Raise by exact Htask. by exists e, w.
Qed.

Lemma Parallel_for_each {A} (d : list A) (task : A → Run Vocabulary ()) w :
  Parallel (task <$> d) w = for_each d task w.
Proof.
  unfold Parallel. revert w. induction d as [|x d IH]; intros w; [done|].
  cbn [fmap list_fmap for_each]. unfold_run.
  destruct (task x w) as [[[]|e] w']; [apply IH|done].
Qed.

(** *** The training pass, by mode *)

Lemma training_pass_local_Ok config l (n : Z) w v d (grams : list Ngram) :
  dask_distributed config = false → vocab l = Some v → data l = Some d →
  Forall2 (λ text gram, partial n v text = Ok gram) d grams →
  training_pass config l n w = (Ok (), foldl stage w grams).
Proof.
  intros Hmode Hv Hd Hall. unfold training_pass. rewrite Hmode, Hv, Hd. simpl.
  destruct (parallelize config).
  - erewrite bind_Ok; [|reflexivity]. rewrite Parallel_for_each.
    by apply local_tasks_Ok.
  - erewrite bind_Ok; [|reflexivity]. by apply local_tasks_Ok.
Qed.

Lemma training_pass_local_Raise config l (n : Z) w v d :
  dask_distributed config = false → vocab l = Some v → data l = Some d →
  Exists (λ text, ∃ e, partial n v text = Raise e) d →
  ∃ e w', training_pass config l n w = (Raise e, w') ∧ ngram_dirs w' = ngram_dirs w.
Proof.
  intros Hmode Hv Hd Hex. unfold training_pass. rewrite Hmode, Hv, Hd. simpl.
  destruct (parallelize config).
  - erewrite bind_Ok; [|reflexivity]. rewrite Parallel_for_each.
    by apply local_tasks_Raise.
  - erewrite bind_Ok; [|reflexivity]. by apply local_tasks_Raise.
Qed.

(** On the remote path every task is called with two arguments,
    [train_ngram(text, distributed_vocab)]: each future holds a
    [TypeError], nothing is staged, and the pass returns. *)
Lemma dask_results d (dv : Vocabulary) w :
  comprehension d (λ text,
    distributed_vocab ← load_local "distributed_vocab" (Some dv);
    mret (call_train_ngram [VStr text; VVocabulary distributed_vocab])) w
  = (Ok ((λ text, call_train_ngram [VStr text; VVocabulary dv]) <$> d), w).
Proof.
  revert w. induction d as [|text d IH]; intros w; [done|].
  cbn [comprehension fmap list_fmap].
  erewrite bind_Ok; [|reflexivity].
  erewrite bind_Ok; [|apply IH]. reflexivity.
Qed.

Lemma dask_futures d (dv : Vocabulary) w :
  compute ((λ text, call_train_ngram [VStr text; VVocabulary dv]) <$> d) w
  = (Ok ((λ _, Raise (TypeError "train_ngram(): wrong number of positional arguments")) <$> d), w).
Proof.
  unfold compute. revert w. induction d as [|text d IH]; intros w; [done|].
  cbn [comprehension fmap list_fmap].
  erewrite bind_Ok; [|reflexivity].
  erewrite bind_Ok; [|apply IH]. reflexivity.
Qed.

Lemma training_pass_dask config l (n : Z) w d dv :
  dask_distributed config = true → data l = Some d → distributed_vocab l = Some dv →
  training_pass config l n w = (Ok (), w).
Proof.
  intros Hmode Hd Hdv. unfold training_pass. rewrite Hmode, Hd, Hdv. simpl.
  erewrite bind_Ok; [|reflexivity].
  erewrite bind_Ok; [|apply dask_results].
  erewrite bind_Ok; [|apply dask_futures]. reflexivity.
Qed.

(** Without a binding of [data] the pass raises at once, in every
    mode. *)
Lemma training_pass_unbound config l (n : Z) w :
  data l = None →
  training_pass config l n w = (Raise (UnboundLocalError "data"), w).
Proof.
  intros Hd. unfold training_pass. rewrite Hd.
  by destruct (dask_distributed config), (parallelize config).
Qed.

(** *** Release, merge and save *)

Lemma release_bound l w v d :
  vocab l = Some v → data l = Some d → release l w = (Ok (released l), w).
Proof. intros Hv Hd. unfold release. rewrite Hv. simpl. by rewrite Hd. Qed.

Lemma release_inv l w l' w' :
  release l w = (Ok l', w') → l' = released l ∧ w' = w.
Proof.
  unfold release. destruct (vocab l) as [v|]; [|done]. simpl.
  destruct (data l) as [d|]; [|done]. by intros [= <- <-].
Qed.

Lemma merge_staged_files (files : list (nat * Ngram)) (gram : Ngram) w :
  NoDup files.*1 → (∀ p g, (p, g) ∈ files → temp w !! p = Some g) →
  merge_staged files.*1 gram w
  = (Ok (foldl merge_grams gram files.*2),
     set_temp (λ t, foldl (λ t p, delete p t) t files.*1) w).
Proof.
  revert gram w. induction files as [|[p g] files IH]; intros gram w Hnd Hin.
  - by destruct w.
  - cbn [fmap list_fmap fst snd merge_staged foldl] in *.
    apply NoDup_cons in Hnd as [Hp Hnd].
    assert (temp w !! p = Some g) as Hg by (apply Hin; by left).
    erewrite bind_Ok; [|unfold Ngram_load_temp; by rewrite Hg].
    erewrite bind_Ok; [|unfold os_remove_temp; by rewrite Hg].
    rewrite IH; [by rewrite set_temp_set_temp|done|].
    intros q g' Hq. simpl. rewrite lookup_delete_ne.
    + apply Hin. by right.
    + intros <-. apply Hp. apply list_elem_of_fmap. by exists (p, g').
Qed.

(** The merge of an order cannot fail: it folds every staged table into
    a freshly constructed one, removing each file as it goes, saves the
    result as the only model of the order's folder and leaves the
    staging folder empty. *)
Lemma merge_and_save_spec (name : string) (n : Z) w :
  merge_and_save name n w
  = (Ok (),
     set_temp (λ _, ∅)
       (set_ngram_dirs (persist name n (foldl merge_grams (Ngram_new None) (staged w))) w)).
Proof.
  unfold merge_and_save.
  erewrite bind_Ok; [|reflexivity].
  erewrite bind_Ok; [|reflexivity].
  erewrite bind_Ok; [|reflexivity].
  erewrite bind_Ok; cycle 1.
  { apply (merge_staged_files (map_to_list (temp w))).
    - apply NoDup_fst_map_to_list.
    - intros p g Hin. by apply elem_of_map_to_list in Hin. }
  erewrite bind_Ok; [|reflexivity].
  rewrite remove_all_temp_spec.
  destruct w as [vs t dirs k]. unfold set_temp, set_ngram_dirs, persist, staged. simpl.
  do 2 f_equal.
  destruct (dirs !! (name, n)); simpl;
    by rewrite lookup_insert_eq, !insert_insert_eq.
Qed.

(** *** One order *)

Lemma train_order_unfold config l (n : Z) w :
  train_order config l n w =
  match training_pass config l n (set_temp (λ _, ∅) w) with
  | (Ok _, w1) =>
      match release l w1 with
      | (Ok l', w2) =>
          (Ok l',
           set_temp (λ _, ∅)
             (set_ngram_dirs
                (persist (generate_name config) n
                   (foldl merge_grams (Ngram_new None) (staged w2))) w2))
      | (Raise e, w2) => (Raise e, w2)
      end
  | (Raise e, w1) => (Raise e, w1)
  end.
Proof.
  unfold train_order.
  erewrite bind_Ok; [|apply remove_all_temp_spec].
  destruct (training_pass config l n (set_temp (λ _, ∅) w)) as [[[]|e] w1] eqn:Hpass.
  - erewrite bind_Ok; [|exact Hpass].
    destruct (release l w1) as [[l'|e] w2] eqn:Hrel.
    + erewrite bind_Ok; [|exact Hrel].
      erewrite bind_Ok; [|apply merge_and_save_spec]. reflexivity.
    + by erewrite bind_Raise; [|exact Hrel].
  - by erewrite bind_Raise; [|exact Hpass].
Qed.

(** An order that completes leaves the staging folder empty and the
    names [vocab] and [data] unbound. *)
Lemma train_order_Ok_inv config l (n : Z) w l' w' :
  train_order config l n w = (Ok l', w') → temp w' = ∅ ∧ l' = released l.
Proof.
  rewrite train_order_unfold.
  destruct (training_pass _ _ _ _) as [[[]|e] w1]; [|done].
  destruct (release l w1) as [[l1|e] w2] eqn:Hrel; [|done].
  apply release_inv in Hrel as [-> ->]. by intros [= <- <-].
Qed.

(** Files left in the staging folder by an earlier run do not count:
    the order starts by removing them. *)
Lemma train_order_stale config l (n : Z) w :
  train_order config l n (set_temp (λ _, ∅) w) = train_order config l n w.
Proof. by rewrite !train_order_unfold, set_temp_set_temp. Qed.

(** In the two local modes a failing shard task aborts the order: no
    model is saved and the output folders stay as they were. *)
Lemma train_order_local_Raise config l (n : Z) w v d :
  dask_distributed config = false → vocab l = Some v → data l = Some d →
  Exists (λ text, ∃ e, partial n v text = Raise e) d →
  ∃ e w', train_order config l n w = (Raise e, w') ∧ ngram_dirs w' = ngram_dirs w.
Proof.
  intros Hmode Hv Hd Hex. rewrite train_order_unfold.
  destruct (training_pass_local_Raise config l n (set_temp (λ _, ∅) w) v d)
    as (e & w' & -> & Hdirs); try done.
  by exists e, w'.
Qed.

(** On the remote path the failed tasks abort nothing: the order
    completes and saves the merge of no table at all. *)
Lemma train_order_dask config l (n : Z) w v d dv :
  dask_distributed config = true →
  vocab l = Some v → data l = Some d → distributed_vocab l = Some dv →
  ∃ w', train_order config l n w = (Ok (released l), w') ∧
        final_model w' (generate_name config) n = Some ∅.
Proof.
  intros Hmode Hv Hd Hdv. rewrite train_order_unfold.
  rewrite (training_pass_dask config l n _ d dv) by done.
  rewrite (release_bound l _ v d) by done.
  eexists. split; [reflexivity|].
  unfold final_model, persist, staged. simpl.
  rewrite map_to_list_empty. simpl.
  rewrite lookup_insert_eq. simpl. by rewrite lookup_singleton_eq.
Qed.

(** The order after one that completed finds [data] deleted. *)
Lemma train_order_after_release config l (n : Z) w :
  train_order config (released l) n w
  = (Raise (UnboundLocalError "data"), set_temp (λ _, ∅) w).
Proof. rewrite train_order_unfold. by rewrite training_pass_unbound. Qed.

Lemma for_orders_two config l (n n' : Z) (rest : list Z) w :
  ∃ e w', for_orders config (n :: n' :: rest) l w = (Raise e, w').
Proof.
  cbn [for_orders].
  destruct (train_order config l n w) as [[l'|e] w'] eqn:Hfirst.
  - erewrite bind_Ok; [|exact Hfirst].
    apply train_order_Ok_inv in Hfirst as [_ ->].
    erewrite bind_Raise; [|apply train_order_after_release]. eauto.
  - erewrite bind_Raise; [|exact Hfirst]. eauto.
Qed.

Lemma range_two (start stop : Z) :
  (start + 1 < stop)%Z →
  ∃ rest, range start stop = start :: (start + 1)%Z :: rest.
Proof.
  intros Hlt. unfold range.
  destruct (Z.to_nat (stop - start)) as [|[|k]] eqn:Hk; [lia..|].
  exists ((λ i, start + Z.of_nat i)%Z <$> seq 2 k).
  cbn [seq fmap list_fmap].
  replace (start + Z.of_nat 0)%Z with start by lia.
  by replace (start + Z.of_nat 1)%Z with (start + 1)%Z by lia.
Qed.

(** A run over more than one order never completes. *)
Lemma main_two_orders config raw w :
  (ngram_range_min config < ngram_range_max config)%Z →
  ∃ e w', main config raw w = (Raise e, w').
Proof.
  intros Hlt. unfold main.
  destruct (startup config raw w) as [[l|e] w1] eqn:Hstart.
  - erewrite bind_Ok; [|exact Hstart].
    destruct (range_two (ngram_range_min config) (ngram_range_max config + 1))
      as [rest ->]; [lia|].
    destruct (for_orders_two config l (ngram_range_min config)
                (ngram_range_min config + 1) rest w1) as (e & w' & Hloop).
    erewrite bind_Raise; [|exact Hloop]. eauto.
  - erewrite bind_Raise; [|exact Hstart]. eauto.
Qed.

(** *** What the local modes stage and save *)

Lemma map_to_list_foldl_stage (grams : list Ngram) w :
  (∀ k, is_Some (temp w !! k) → k < uuid_draws w) →
  map_to_list (temp (foldl stage w grams))
  ≡ₚ map_to_list (temp w) ++ zip (seq (uuid_draws w) (length grams)) grams.
Proof.
  revert w. induction grams as [|g grams IH]; intros w Hfresh.
  - cbn [foldl length seq zip zip_with]. by rewrite app_nil_r.
  - cbn [foldl length seq zip zip_with]. rewrite IH.
    + cbn [stage temp uuid_draws].
      rewrite map_to_list_insert.
      * by rewrite <- Permutation_middle.
      * destruct (temp w !! uuid_draws w) eqn:Hu; [|done].
        assert (uuid_draws w < uuid_draws w) by (apply Hfresh; by rewrite Hu).
        lia.
    + intros k. cbn [stage temp uuid_draws]. rewrite lookup_insert.
      destruct (decide (uuid_draws w = k)) as [<-|Hne]; [lia|].
      intros Hk. apply Hfresh in Hk. lia.
Qed.

(** From an empty staging folder the staged tables are the tables of
    the shards, one each. *)
Lemma staged_foldl_stage (grams : list Ngram) w :
  temp w = ∅ → staged (foldl stage w grams) ≡ₚ grams.
Proof.
  intros Hempty. unfold staged. rewrite map_to_list_foldl_stage.
  - rewrite Hempty, map_to_list_empty. cbn [app].
    rewrite snd_zip; [done|]. rewrite length_seq. lia.
  - intros k. rewrite Hempty, lookup_empty. by intros [? ?].
Qed.

(** In the two local modes, an order whose shard tables can all be
    built completes, and the model it saves is the sum of the tables of
    the shards. *)
Lemma train_order_local_model config l (n : Z) w v d (grams : list Ngram) :
  dask_distributed config = false → vocab l = Some v → data l = Some d →
  Forall2 (λ text gram, partial n v text = Ok gram) d grams →
  ∃ w', train_order config l n w = (Ok (released l), w') ∧
        final_model w' (generate_name config) n = Some (total grams).
Proof.
  intros Hmode Hv Hd Hall. rewrite train_order_unfold.
  rewrite (training_pass_local_Ok config l n _ v d grams) by done.
  rewrite (release_bound l _ v d) by done.
  eexists. split; [reflexivity|].
  unfold final_model, persist. simpl.
  rewrite lookup_insert_eq. simpl. rewrite lookup_singleton_eq. simpl.
  rewrite foldl_merge_grams. cbn [Ngram_new chain_frequency].
  rewrite merge_empty_l. f_equal.
  apply total_Permutation. by apply staged_foldl_stage.
Qed.

End orchestration.

(** ** The claims on the merge that need the orchestration *)

Lemma final_model_persist {Vocabulary : Type} (name : string) (n : Z) (gram : Ngram)
    (w : World Vocabulary) :
  final_model (set_temp (λ _, ∅) (set_ngram_dirs (persist name n gram) w)) name n
  = Some (chain_frequency gram).
Proof.
  unfold final_model, persist. simpl.
  rewrite lookup_insert_eq. simpl. by rewrite lookup_singleton_eq.
Qed.

(** C10: a freshly constructed table is a left identity of
    [merge_grams] on contents.  The merge of an order folds the staged
    tables into such a table: with [B] the only staged table, the model
    it saves has the contents of [B]. *)
Theorem merge_grams_empty_l (n : option Z) (B : Ngram) :
  chain_frequency (merge_grams (Ngram_new n) B) = chain_frequency B ∧
  ∀ (Vocabulary : Type) (name : string) (k : Z) (w : World Vocabulary),
    ∃ w', merge_and_save name k w = (Ok (), w') ∧
          final_model w' name k
          = Some (chain_frequency (foldl merge_grams (Ngram_new None) (staged w))) ∧
          (staged w = [B] → final_model w' name k = Some (chain_frequency B)).
Proof.
  split.
  - rewrite merge_grams_merge. apply merge_empty_l.
  - intros Vocabulary name k w. eexists. split; [apply merge_and_save_spec|].
    rewrite final_model_persist. split; [done|].
    intros ->. cbn [foldl]. by rewrite merge_grams_merge, merge_empty_l.
Qed.

(** C5: on a non-empty list the tree reduction returns a table with the
    contents of the left-to-right fold of [merge_grams] from a freshly
    constructed table, the fold of [main].  Run in place on separate
    objects that hold the tables of the list, it returns an object with
    these contents. *)
Theorem merge_models_incrementally_fold (models : list Ngram) :
  models ≠ [] →
  ∃ g, merge_models_incrementally models = Ok g ∧
       chain_frequency g
       = chain_frequency (foldl merge_grams (Ngram_new None) models) ∧
       ∀ h objects,
         InPlace.separate h objects →
         InPlace.content h <$> objects = chain_frequency <$> models →
         ∃ a h', InPlace.merge_models_incrementally h objects = Ok (a, h') ∧
                 InPlace.content h' a = chain_frequency g.
Proof.
  intros Hne.
  destruct (merge_models_incrementally_total models Hne) as (g & Hg & Hcf).
  exists g. split_and!; [done| |].
  - by rewrite foldl_merge_grams, Hcf, merge_empty_l.
  - intros h objects Hsep Hvalues.
    destruct (inplace_merge_models_incrementally_total h objects Hsep)
      as (a & h' & Hrun & Hc).
    { intros ->. by destruct models. }
    exists a, h'. split; [done|].
    by rewrite Hc, Hcf, inplace_total_fmap, total_fmap, Hvalues.
Qed.

Lemma merge_models_incrementally_fold_witness :
  ∃ g, merge_models_incrementally [table_a; table_b; table_a] = Ok g ∧
       chain_frequency g
       = chain_frequency (foldl merge_grams (Ngram_new None) [table_a; table_b; table_a]) ∧
       ∀ h objects,
         InPlace.separate h objects →
         InPlace.content h <$> objects = chain_frequency <$> [table_a; table_b; table_a] →
         ∃ a h', InPlace.merge_models_incrementally h objects = Ok (a, h') ∧
                 InPlace.content h' a = chain_frequency g.
Proof.
  apply (merge_models_incrementally_fold [table_a; table_b; table_a]). discriminate.
Defined.

(** ** The claims on the orchestration *)

Lemma compute_Ok `{!Modules Vocabulary} (results : list (Run Vocabulary ()))
    (w : World Vocabulary) :
  ∃ futures w', compute results w = (Ok futures, w').
Proof.
  unfold compute. revert w. induction results as [|task results IH]; intros w.
  - by exists [], w.
  - cbn [comprehension].
    destruct (task w) as [r w1] eqn:Htask.
    destruct (IH w1) as (futures & w' & Hrest).
    exists (r :: futures), w'.
    erewrite bind_Ok; [|by rewrite Htask].
    erewrite bind_Ok; [|exact Hrest]. reflexivity.
Qed.

Lemma merge_staged_step {Vocabulary : Type} (model_path : nat) (rest : list nat)
    (gram_final sub_gram : Ngram) (w : World Vocabulary) :
  temp w !! model_path = Some sub_gram →
  merge_staged (model_path :: rest) gram_final w
  = merge_staged rest (merge_grams gram_final sub_gram) (set_temp (delete model_path) w).
Proof.
  intros Hg. cbn [merge_staged].
  erewrite bind_Ok; [|unfold Ngram_load_temp; by rewrite Hg].
  erewrite bind_Ok; [|unfold os_remove_temp; by rewrite Hg]. reflexivity.
Qed.

(** C7: when the body of the loop completes for order [n], the staging
    folder is empty in the world where the next order starts; the same
    run results when the files an earlier run left in staging are
    removed beforehand, since the body starts by removing them; and the
    merge loop removes each staged file right after folding it in. *)
Theorem staging_empty_between_orders `{!Modules Vocabulary}
    (config : Config) (l : Locals Vocabulary) (n : Z) (w : World Vocabulary)
    (l' : Locals Vocabulary) (w' : World Vocabulary) :
  train_order config l n w = (Ok l', w') →
  temp w' = ∅ ∧
  (∀ rest, for_orders config (n :: rest) l w = for_orders config rest l' w') ∧
  train_order config l n (set_temp (λ _, ∅) w) = (Ok l', w') ∧
  (∀ model_path rest gram_final sub_gram (w0 : World Vocabulary),
     temp w0 !! model_path = Some sub_gram →
     merge_staged (model_path :: rest) gram_final w0
     = merge_staged rest (merge_grams gram_final sub_gram)
         (set_temp (delete model_path) w0)).
Proof.
  intros Hrun. split_and!.
  - by apply train_order_Ok_inv in Hrun as [? _].
  - intros rest. cbn [for_orders]. by erewrite bind_Ok; [|exact Hrun].
  - by rewrite train_order_stale.
  - intros. by apply merge_staged_step.
Qed.

Lemma staging_empty_between_orders_witness :
  temp (train_order (config_of "p" 2 2 Sequential) (cat_dog_locals Sequential) 2 stale_world).2 = ∅ ∧
  (∀ rest,
     for_orders (config_of "p" 2 2 Sequential) (2%Z :: rest) (cat_dog_locals Sequential) stale_world
     = for_orders (config_of "p" 2 2 Sequential) rest (released (cat_dog_locals Sequential))
         (train_order (config_of "p" 2 2 Sequential) (cat_dog_locals Sequential) 2 stale_world).2) ∧
  train_order (config_of "p" 2 2 Sequential) (cat_dog_locals Sequential) 2
    (set_temp (λ _, ∅) stale_world)
  = (Ok (released (cat_dog_locals Sequential)),
     (train_order (config_of "p" 2 2 Sequential) (cat_dog_locals Sequential) 2 stale_world).2) ∧
  (∀ model_path rest gram_final sub_gram (w0 : World spec_Vocabulary),
     temp w0 !! model_path = Some sub_gram →
     merge_staged (model_path :: rest) gram_final w0
     = merge_staged rest (merge_grams gram_final sub_gram)
         (set_temp (delete model_path) w0)).
Proof.
  apply (staging_empty_between_orders
           (config_of "p" 2 2 Sequential) (cat_dog_locals Sequential) 2 stale_world).
  vm_compute. reflexivity.
Defined.

(** C1 (fails on the code): the release step of the first order deletes
    [vocab] and [data] themselves, so a run over more than one order
    never completes; on the example corpus with orders 1 and 2 every
    mode raises [UnboundLocalError] for [data] at order 2 and saves no
    model of order 2. *)
Theorem second_order_finds_data_deleted :
  (∀ (Vocabulary : Type) (M : Modules Vocabulary) config raw w,
     (ngram_range_min config < ngram_range_max config)%Z →
     ∃ e w', main config raw w = (Raise e, w')) ∧
  (∀ (Vocabulary : Type) (M : Modules Vocabulary) config l n w, ∃ w',
     train_order config (released l) n w = (Raise (UnboundLocalError "data"), w')) ∧
  (∀ m, (main (config_of "p" 1 2 m) cat_dog_corpus empty_world).1
        = Raise (UnboundLocalError "data")) ∧
  (∀ m, final_model (main (config_of "p" 1 2 m) cat_dog_corpus empty_world).2 "p" 2
        = None).
Proof.
  split_and!.
  - intros M config raw w. apply main_two_orders.
  - intros M config l n w. eexists. apply train_order_after_release.
  - by intros []; vm_compute.
  - by intros []; vm_compute.
Qed.

(** C2 (fails on the code): on the remote path each task is the call
    [train_ngram(text, distributed_vocab)], without the order: the call
    raises [TypeError] and stages nothing, whatever the documents.  In
    the two local modes the pass stages the table of each shard, built
    from its text, the order and the vocabulary.  On the example corpus
    the two local modes stage one table per document and the remote mode
    none. *)
Theorem remote_tasks_lack_the_order :
  (∀ (Vocabulary : Type) (M : Modules Vocabulary) (text : pystr) (dv : Vocabulary)
     (w : World Vocabulary),
     call_train_ngram [VStr text; VVocabulary dv] w
     = (Raise (TypeError "train_ngram(): wrong number of positional arguments"), w)) ∧
  (∀ (Vocabulary : Type) (M : Modules Vocabulary) config l (n : Z) w d dv,
     dask_distributed config = true → data l = Some d → distributed_vocab l = Some dv →
     training_pass config l n w = (Ok (), w)) ∧
  (∀ (Vocabulary : Type) (M : Modules Vocabulary) config l (n : Z) w v d grams,
     dask_distributed config = false → vocab l = Some v → data l = Some d →
     temp w = ∅ →
     Forall2 (λ text gram, partial n v text = Ok gram) d grams →
     ∃ w', training_pass config l n w = (Ok (), w') ∧ staged w' ≡ₚ grams) ∧
  length (staged (first_pass Sequential).2) = 2 ∧
  length (staged (first_pass LocalParallel).2) = 2 ∧
  first_pass RemoteDistributed = (Ok (), empty_world).
Proof.
  split_and!.
  - done.
  - intros V M config l n w d dv. apply training_pass_dask.
  - intros V M config l n w v d grams Hmode Hv Hd Hempty Hall.
    exists (foldl stage w grams). split.
    + by apply (training_pass_local_Ok config l n w v d grams).
    + by apply staged_foldl_stage.
  - by vm_compute.
  - by vm_compute.
  - by vm_compute.
Qed.

(** C6 (fails on the code): on the remote path the outcome of a task is
    kept in its future and never read, so an order whose tasks all
    failed completes and saves a model, the merge of no table.  On the
    example corpus the remote run saves an empty model of order 2; the
    sequential and the local-parallel runs, where a task fails on a token
    absent from the persisted vocabulary, raise and leave the output
    folders as they were. *)
Theorem remote_failure_saves_a_model :
  (∀ (Vocabulary : Type) (M : Modules Vocabulary) (results : list (Run Vocabulary ())) (w : World Vocabulary),
     ∃ futures w', compute results w = (Ok futures, w')) ∧
  (∀ (Vocabulary : Type) (M : Modules Vocabulary) config l (n : Z) w v d dv,
     dask_distributed config = true →
     vocab l = Some v → data l = Some d → distributed_vocab l = Some dv →
     ∃ w', train_order config l n w = (Ok (released l), w') ∧
           final_model w' (generate_name config) n = Some ∅) ∧
  (main (config_of "p" 2 2 RemoteDistributed) cat_dog_corpus prior_world).1 = Ok () ∧
  final_model (main (config_of "p" 2 2 RemoteDistributed) cat_dog_corpus prior_world).2 "p" 2
  = Some ∅ ∧
  (∀ m, m ≠ RemoteDistributed →
        (main (config_of "p" 2 2 m) cat_dog_corpus prior_world).1
        = Raise (Exception "token absent from the vocabulary") ∧
        ngram_dirs (main (config_of "p" 2 2 m) cat_dog_corpus prior_world).2
        = ngram_dirs prior_world).
Proof.
  split_and!.
  - intros M results w. apply compute_Ok.
  - intros M config l n w v d dv. apply train_order_dask.
  - by vm_compute.
  - by vm_compute.
  - intros [] Hm; try done; by vm_compute.
Qed.

(** ** The example of the specification *)

(** On the corpus "the cat sat", "the dog sat" at order 2, each document
    a shard of its own, the two local modes save the expected model. *)
Example cat_dog_end_to_end (m : mode) :
  m ≠ RemoteDistributed →
  (main (config_of "p" 2 2 m) cat_dog_corpus empty_world).1 = Ok () ∧
  final_model (main (config_of "p" 2 2 m) cat_dog_corpus empty_world).2 "p" 2
  = Some cat_dog_model ∧
  vocabs (main (config_of "p" 2 2 m) cat_dog_corpus empty_world).2 !! "p.vocab"
  = Some cat_dog_vocab.
Proof. destruct m; intros Hm; try done; by vm_compute. Qed.

(** * Further properties *)

(** ** What the orchestration leaves alone *)

Section outputs.
Context {Vocabulary : Type} `{!Modules Vocabulary}.

Implicit Types (w : World Vocabulary) (l : Locals Vocabulary).

Lemma same_outputs_refl w : same_outputs w w.
Proof. by split. Qed.

Lemma same_outputs_trans w1 w2 w3 :
  same_outputs w1 w2 → same_outputs w2 w3 → same_outputs w1 w3.
Proof. intros [H1 H2] [H3 H4]. split; congruence. Qed.

Lemma keeps_bind {A B} (m : Run Vocabulary A) (f : A → Run Vocabulary B) :
  keeps_outputs m → (∀ a, keeps_outputs (f a)) → keeps_outputs (m ≫= f).
Proof.
  intros Hm Hf w. specialize (Hm w).
  unfold mbind, Run_mbind, Run_bind.
  destruct (m w) as [[a|e] w1]; [|done].
  eapply same_outputs_trans; [exact Hm|apply Hf].
Qed.

Lemma keeps_ret {A} (a : A) : keeps_outputs (mret a : Run Vocabulary A).
Proof. intros w. apply same_outputs_refl. Qed.

Lemma keeps_raise {A} (e : exn) : keeps_outputs (raise e : Run Vocabulary A).
Proof. intros w. apply same_outputs_refl. Qed.

Lemma keeps_lift {A} (r : result A) : keeps_outputs (lift r : Run Vocabulary A).
Proof. intros w. apply same_outputs_refl. Qed.

Lemma keeps_load_local {A} (name : string) (x : option A) :
  keeps_outputs (load_local name x : Run Vocabulary A).
Proof. destruct x; [apply keeps_ret|apply keeps_raise]. Qed.

Lemma keeps_for_each {A} (d : list A) (body : A → Run Vocabulary ()) :
  (∀ x, keeps_outputs (body x)) → keeps_outputs (for_each d body).
Proof.
  intros Hbody. induction d as [|x d IH]; [apply keeps_ret|].
  cbn [for_each]. apply keeps_bind; [apply Hbody|]. by intros _.
Qed.

Lemma keeps_comprehension {A B} (d : list A) (f : A → Run Vocabulary B) :
  (∀ x, keeps_outputs (f x)) → keeps_outputs (comprehension d f).
Proof.
  intros Hf. induction d as [|x d IH]; [apply keeps_ret|].
  cbn [comprehension]. apply keeps_bind; [apply Hf|]. intros y.
  apply keeps_bind; [apply IH|]. intros ys. apply keeps_ret.
Qed.

Lemma keeps_train_ngram (n : Z) (text : pystr) (v : Vocabulary) :
  keeps_outputs (train_ngram n text v).
Proof.
  intros w. rewrite train_ngram_partial.
  by destruct (partial n v text).
Qed.

Lemma keeps_call_train_ngram (args : list (value (Vocabulary := Vocabulary))) :
  keeps_outputs (call_train_ngram args).
Proof.
  destruct args as [|[] [|[] [|[] [|]]]]; try apply keeps_raise.
  apply keeps_train_ngram.
Qed.

Lemma keeps_bind_post {A B} (m : Run Vocabulary A) (f : A → Run Vocabulary B)
    (Q : A → Prop) :
  keeps_outputs m → (∀ w a, (m w).1 = Ok a → Q a) →
  (∀ a, Q a → keeps_outputs (f a)) → keeps_outputs (m ≫= f).
Proof.
  intros Hm HQ Hf w. specialize (Hm w). specialize (HQ w).
  unfold mbind, Run_mbind, Run_bind.
  destruct (m w) as [[a|e] w1]; [|done].
  eapply same_outputs_trans; [exact Hm|]. apply Hf. by apply HQ.
Qed.

Lemma keeps_compute (results : list (Run Vocabulary ())) :
  Forall keeps_outputs results → keeps_outputs (compute results).
Proof.
  unfold compute. induction 1 as [|task results Htask _ IH]; [apply keeps_ret|].
  cbn [comprehension]. apply keeps_bind.
  - intros w. specialize (Htask w). by destruct (task w).
  - intros r. apply keeps_bind; [apply IH|]. intros rs. apply keeps_ret.
Qed.

Lemma dask_results_keep (d : list pystr) (x : option Vocabulary) w
    (results : list (Run Vocabulary ())) :
  (comprehension d (λ text,
     distributed_vocab ← load_local "distributed_vocab" x;
     mret (call_train_ngram [VStr text; VVocabulary distributed_vocab])) w).1
  = Ok results →
  Forall keeps_outputs results.
Proof.
  destruct x as [dv|].
  - rewrite dask_results. intros [= <-].
    apply Forall_fmap, Forall_forall. intros text _.
    apply (keeps_call_train_ngram [VStr text; VVocabulary dv]).
  - destruct d as [|text d]; [|done]. intros [= <-]. constructor.
Qed.

(** The training pass writes to the staging folder only. *)
Lemma keeps_training_pass config l (n : Z) :
  keeps_outputs (training_pass config l n).
Proof.
  assert (∀ text, keeps_outputs
            (vocab ← load_local "vocab" (vocab l); train_ngram n (str text) vocab))
    as Htask.
  { intros text. apply keeps_bind; [apply keeps_load_local|].
    intros v. apply keeps_train_ngram. }
  unfold training_pass.
  destruct (dask_distributed config); cbn [negb].
  - apply keeps_bind; [apply keeps_load_local|]. intros d.
    apply (keeps_bind_post _ _ (Forall keeps_outputs)).
    + apply keeps_comprehension. intros text.
      apply keeps_bind; [apply keeps_load_local|]. intros dv. apply keeps_ret.
    + intros w results. apply dask_results_keep.
    + intros results Hres. apply keeps_bind; [by apply keeps_compute|].
      intros futures. apply keeps_ret.
  - destruct (parallelize config).
    + apply keeps_bind; [apply keeps_load_local|]. intros d w.
      rewrite Parallel_for_each. by apply keeps_for_each.
    + apply keeps_bind; [apply keeps_load_local|]. intros d.
      by apply keeps_for_each.
Qed.

Lemma train_order_saves_or_keeps config l (n : Z) w :
  vocabs (train_order config l n w).2 = vocabs w ∧
  match (train_order config l n w).1 with
  | Ok _ =>
      (∃ gram, ngram_dirs (train_order config l n w).2 !! (generate_name config, n)
               = Some {[ model_file n := gram ]}) ∧
      ∀ folder, folder ≠ (generate_name config, n) →
        ngram_dirs (train_order config l n w).2 !! folder = ngram_dirs w !! folder
  | Raise _ => ngram_dirs (train_order config l n w).2 = ngram_dirs w
  end.
Proof.
  rewrite train_order_unfold.
  destruct (keeps_training_pass config l n (set_temp (λ _, ∅) w)) as [Hv Hd].
  destruct (training_pass config l n (set_temp (λ _, ∅) w)) as [[[]|e] w1];
    cbn [fst snd] in *; [|done].
  destruct (release l w1) as [[l'|e] w2] eqn:Hrel; cbn [fst snd].
  - apply release_inv in Hrel as [-> ->]. split; [done|]. split.
    + eexists. unfold persist. simpl. by rewrite lookup_insert_eq.
    + intros folder Hne. unfold persist. simpl.
      rewrite lookup_insert_ne by done. by rewrite Hd.
  - assert (w2 = w1) as ->; [|done].
    unfold release in Hrel. destruct (vocab l); [|by injection Hrel].
    simpl in Hrel. destruct (data l); [done|by injection Hrel].
Qed.



Lemma load_or_create_vocabulary_cases (d : list pystr) (name : string) w :
  match load_or_create_vocabulary d name w with
  | (Ok v, w') =>
      vocabs w' !! (name +:+ ".vocab") = Some v ∧
      (∀ stored, vocabs w !! (name +:+ ".vocab") = Some stored →
                 v = stored ∧ w' = w) ∧
      (∀ file, file ≠ name +:+ ".vocab" → vocabs w' !! file = vocabs w !! file) ∧
      temp w' = temp w ∧ ngram_dirs w' = ngram_dirs w
  | (Raise e, w') => e = SystemExit 1 ∧ w' = w
  end.
Proof.
  unfold load_or_create_vocabulary.
  destruct (vocabs w !! (name +:+ ".vocab")) as [stored|] eqn:Hfile.
  - split_and!; try done. by intros ? [= <-].
  - destruct (foldl _ _ d) as [v|e]; [|done].
    split_and!; try done.
    + simpl. apply lookup_insert_eq.
    + intros file Hne. simpl. by rewrite lookup_insert_ne.
Qed.


(** X3: once [load_or_create_vocabulary] has returned, calling it again
    for the same project returns the same vocabulary and writes nothing,
    whatever the documents then are: the ids are stable across runs. *)
Theorem load_or_create_vocabulary_stable (d : list pystr) (name : string) w v w' :
  load_or_create_vocabulary d name w = (Ok v, w') →
  ∀ d', load_or_create_vocabulary d' name w' = (Ok v, w').
Proof.
  intros Hrun d'.
  pose proof (load_or_create_vocabulary_cases d name w) as Hout.
  rewrite Hrun in Hout. destruct Hout as (Hfile & _).
  unfold load_or_create_vocabulary. by rewrite Hfile.
Qed.




Lemma training_pass_empty config l (n : Z) w :
  data l = Some [] → training_pass config l n w = (Ok (), w).
Proof.
  intros Hd. unfold training_pass. rewrite Hd.
  by destruct (dask_distributed config), (parallelize config).
Qed.

(** X6: on an empty corpus a run over one order in the sequential or
    the local-parallel mode returns and saves an empty model of that
    order; the staging folder is empty afterwards. *)
Theorem main_empty_corpus config w :
  dask_distributed config = false →
  ngram_range_max config = ngram_range_min config →
  (main config [] w).1 = Ok () ∧
  final_model (main config [] w).2 (generate_name config) (ngram_range_min config)
  = Some ∅ ∧
  temp (main config [] w).2 = ∅.
Proof.
  intros Hmode Heq. unfold main, mbind, Run_mbind, Run_bind.
  assert (range (ngram_range_min config) (ngram_range_max config + 1)
          = [ngram_range_min config]) as ->.
  { unfold range. rewrite Heq.
    replace (Z.to_nat _) with 1 by lia. cbn [seq fmap list_fmap].
    f_equal. lia. }
  assert (∃ v w1, startup config [] w =
            (Ok {| vocab := Some v; data := Some [];
                   distributed_vocab :=
                     if dask_distributed config then Some v else None |}, w1))
    as (v & w1 & ->).
  { unfold startup, load_or_create_vocabulary, mbind, Run_mbind, Run_bind.
    cbn [fmap list_fmap foldl].
    destruct (vocabs w !! _); eauto. }
  cbn [for_orders]. unfold mbind, Run_mbind, Run_bind.
  rewrite train_order_unfold, training_pass_empty by done.
  cbn [release load_local vocab data].
  unfold mbind, mret, Run_mbind, Run_mret, Run_bind, Run_ret. cbn [fst snd].
  split_and!; [done| |done].
  unfold final_model, persist, staged. simpl.
  rewrite map_to_list_empty. simpl.
  rewrite lookup_insert_eq. simpl. by rewrite lookup_singleton_eq.
Qed.

Lemma local_tasks_prefix (n : Z) (v : Vocabulary) (d1 d2 : list pystr) (text : pystr)
    (grams : list Ngram) (e : exn) w :
  Forall2 (λ text gram, partial n v text = Ok gram) d1 grams →
  partial n v text = Raise e →
  for_each (d1 ++ text :: d2)
    (λ text, vocab ← load_local "vocab" (Some v); train_ngram n (str text) vocab) w
  = (Raise e, foldl stage w grams).
Proof.
  intros Hall Hfail. revert w.
  induction Hall as [|t gram d1 grams Hp _ IH]; intros w.
  - cbn [app for_each foldl].
    erewrite bind_Raise; [done|].
    unfold load_local. erewrite bind_Ok; [|reflexivity].
    unfold str. by rewrite train_ngram_partial, Hfail.
  - cbn [app for_each foldl].
    erewrite bind_Ok; [apply IH|].
    unfold load_local. erewrite bind_Ok; [|reflexivity].
    unfold str. by rewrite train_ngram_partial, Hp.
Qed.

(** X7: in the sequential mode an order that fails at a document does
    not clean up: the tables staged for the documents before it stay in
    the staging folder (until the next order or run starts), the
    documents after it are not trained, and no model is saved. *)
Theorem failed_order_leaves_staged config l (n : Z) w v
    (d1 d2 : list pystr) (text : pystr) (grams : list Ngram) (e : exn) :
  dask_distributed config = false → parallelize config = false →
  vocab l = Some v → data l = Some (d1 ++ text :: d2) →
  Forall2 (λ text gram, partial n v text = Ok gram) d1 grams →
  partial n v text = Raise e →
  train_order config l n w = (Raise e, foldl stage (set_temp (λ _, ∅) w) grams) ∧
  staged (foldl stage (set_temp (λ _, ∅) w) grams) ≡ₚ grams ∧
  ngram_dirs (foldl stage (set_temp (λ _, ∅) w) grams) = ngram_dirs w.
Proof.
  intros Hmode Hseq Hv Hd Hall Hfail. split_and!.
  - rewrite train_order_unfold. unfold training_pass.
    rewrite Hmode, Hseq, Hv, Hd. cbn [negb].
    erewrite bind_Ok; [|reflexivity].
    by rewrite (local_tasks_prefix n v d1 d2 text grams e).
  - by apply staged_foldl_stage.
  - change (ngram_dirs w) with (ngram_dirs (set_temp (λ _, ∅) w)).
    clear. generalize (set_temp (λ _, ∅) w). intros w0. revert w0.
    induction grams as [|g grams IH]; intros w0; [done|].
    cbn [foldl]. by rewrite IH.
Qed.

(** X8: in the sequential and local-parallel modes an order whose shard
    tables can all be built saves the sum of the tables of the
    documents, whatever the order in which the staged files are listed
    and whatever was staged before: training each document as a shard of
    its own and merging gives the table of the whole corpus.  The
    staging folder is empty afterwards and no vocabulary file has
    changed. *)
Theorem local_order_saves_the_sum config l (n : Z) w v (d : list pystr)
    (grams : list Ngram) :
  dask_distributed config = false → vocab l = Some v → data l = Some d →
  Forall2 (λ text gram, partial n v text = Ok gram) d grams →
  ∃ w', train_order config l n w = (Ok (released l), w') ∧
        final_model w' (generate_name config) n = Some (total grams) ∧
        temp w' = ∅ ∧ vocabs w' = vocabs w.
Proof.
  intros Hmode Hv Hd Hall.
  destruct (train_order_local_model config l n w v d grams Hmode Hv Hd Hall)
    as (w' & Hrun & Hmodel).
  exists w'. split_and!; [done..| |].
  - by apply train_order_Ok_inv in Hrun as [? _].
  - pose proof (train_order_saves_or_keeps config l n w) as [Hvocabs _].
    by rewrite Hrun in Hvocabs.
Qed.

(** X22: a run over one order in the sequential or the local-parallel
    mode, when the vocabulary can be loaded or built and the table of
    every preprocessed document can be built, returns; the model it
    saves is the sum of the tables of the documents, the staging folder
    is empty afterwards and the vocabulary file holds the vocabulary
    used. *)
Theorem main_single_order config (raw : list pystr) w (v : Vocabulary) w1
    (grams : list Ngram) :
  dask_distributed config = false →
  ngram_range_max config = ngram_range_min config →
  load_or_create_vocabulary (preprocessing <$> raw) (generate_name config) w
  = (Ok v, w1) →
  Forall2 (λ text gram, partial (ngram_range_min config) v text = Ok gram)
    (preprocessing <$> raw) grams →
  ∃ w', main config raw w = (Ok (), w') ∧
        final_model w' (generate_name config) (ngram_range_min config)
        = Some (total grams) ∧
        temp w' = ∅ ∧
        vocabs w' !! (generate_name config +:+ ".vocab") = Some v.
Proof.
  intros Hmode Heq Hvocab Hall.
  set (l0 := {| vocab := Some v; data := Some (preprocessing <$> raw);
                distributed_vocab := None |}).
  assert (startup config raw w = (Ok l0, w1)) as Hstart.
  { unfold startup. erewrite bind_Ok; [|exact Hvocab]. by rewrite Hmode. }
  destruct (train_order_local_model config l0 (ngram_range_min config) w1 v
              (preprocessing <$> raw) grams Hmode eq_refl eq_refl Hall)
    as (w' & Hrun & Hmodel).
  exists w'. split_and!.
  - unfold main. erewrite bind_Ok; [|exact Hstart].
    assert (range (ngram_range_min config) (ngram_range_max config + 1)
            = [ngram_range_min config]) as ->.
    { unfold range. rewrite Heq.
      replace (Z.to_nat _) with 1 by lia. cbn [seq fmap list_fmap].
      f_equal. lia. }
    cbn [for_orders].
    erewrite bind_Ok; [reflexivity|].
    erewrite bind_Ok; [|exact Hrun]. reflexivity.
  - exact Hmodel.
  - by apply train_order_Ok_inv in Hrun as [? _].
  - pose proof (train_order_saves_or_keeps config l0 (ngram_range_min config) w1)
      as [Hv _].
    rewrite Hrun in Hv. cbn [snd] in Hv. rewrite Hv.
    pose proof (load_or_create_vocabulary_cases
                  (preprocessing <$> raw) (generate_name config) w) as Hout.
    rewrite Hvocab in Hout. by destruct Hout as (? & _).
Qed.

End outputs.

(** *** On the example corpus *)

Lemma load_or_create_vocabulary_stable_witness :
  load_or_create_vocabulary (preprocessing <$> cat_dog_corpus) "p" empty_world
  = (Ok cat_dog_vocab, vocab_world) ∧
  load_or_create_vocabulary [lit "a bird sang"] "p" vocab_world
  = (Ok cat_dog_vocab, vocab_world).
Proof.
  split; [vm_compute; reflexivity|].
  apply (load_or_create_vocabulary_stable
           (preprocessing <$> cat_dog_corpus) "p" empty_world).
  vm_compute; reflexivity.
Defined.



Lemma main_empty_corpus_witness :
  (dask_distributed (config_of "p" 2 2 LocalParallel) = false ∧
   ngram_range_max (config_of "p" 2 2 LocalParallel)
   = ngram_range_min (config_of "p" 2 2 LocalParallel)) ∧
  (main (config_of "p" 2 2 LocalParallel) [] stale_world).1 = Ok () ∧
  final_model (main (config_of "p" 2 2 LocalParallel) [] stale_world).2
    (generate_name (config_of "p" 2 2 LocalParallel))
    (ngram_range_min (config_of "p" 2 2 LocalParallel))
  = Some ∅ ∧
  temp (main (config_of "p" 2 2 LocalParallel) [] stale_world).2 = ∅.
Proof.
  split; [split; reflexivity|].
  apply (main_empty_corpus (config_of "p" 2 2 LocalParallel) stale_world);
    reflexivity.
Defined.

Lemma failed_order_leaves_staged_witness :
  (dask_distributed (config_of "p" 2 2 Sequential) = false ∧
   parallelize (config_of "p" 2 2 Sequential) = false ∧
   vocab short_vocab_locals = Some [lit "the"; lit "cat"; lit "sat"] ∧
   data short_vocab_locals
   = Some ([preprocessing (lit "the cat sat")] ++ preprocessing (lit "the dog sat") :: []) ∧
   Forall2 (λ text gram, partial 2 [lit "the"; lit "cat"; lit "sat"] text = Ok gram)
     [preprocessing (lit "the cat sat")] [the_cat_sat] ∧
   partial 2 [lit "the"; lit "cat"; lit "sat"] (preprocessing (lit "the dog sat"))
   = Raise absent_token) ∧
  train_order (config_of "p" 2 2 Sequential) short_vocab_locals 2 empty_world
  = (Raise absent_token, foldl stage (set_temp (λ _, ∅) empty_world) [the_cat_sat]) ∧
  staged (foldl stage (set_temp (λ _, ∅) empty_world) [the_cat_sat]) ≡ₚ [the_cat_sat] ∧
  ngram_dirs (foldl stage (set_temp (λ _, ∅) empty_world) [the_cat_sat])
  = ngram_dirs empty_world.
Proof.
  assert (Forall2 (λ text gram, partial 2 [lit "the"; lit "cat"; lit "sat"] text = Ok gram)
            [preprocessing (lit "the cat sat")] [the_cat_sat]) as Hall.
  { constructor; [vm_compute; reflexivity|constructor]. }
  split; [split_and!; [reflexivity|reflexivity|reflexivity|reflexivity|exact Hall|vm_compute; reflexivity]|].
  apply (failed_order_leaves_staged (config_of "p" 2 2 Sequential) short_vocab_locals 2
           empty_world [lit "the"; lit "cat"; lit "sat"]
           [preprocessing (lit "the cat sat")] [] (preprocessing (lit "the dog sat"))
           [the_cat_sat] absent_token);
    [reflexivity|reflexivity|reflexivity|reflexivity|exact Hall|vm_compute; reflexivity].
Defined.

Lemma local_order_saves_the_sum_witness :
  (dask_distributed (config_of "p" 2 2 LocalParallel) = false ∧
   vocab (cat_dog_locals LocalParallel) = Some cat_dog_vocab ∧
   data (cat_dog_locals LocalParallel) = Some (preprocessing <$> cat_dog_corpus) ∧
   Forall2 (λ text gram, partial 2 cat_dog_vocab text = Ok gram)
     (preprocessing <$> cat_dog_corpus) [the_cat_sat; the_dog_sat]) ∧
  ∃ w', train_order (config_of "p" 2 2 LocalParallel) (cat_dog_locals LocalParallel) 2
          stale_world
        = (Ok (released (cat_dog_locals LocalParallel)), w') ∧
        final_model w' (generate_name (config_of "p" 2 2 LocalParallel)) 2
        = Some (total [the_cat_sat; the_dog_sat]) ∧
        temp w' = ∅ ∧ vocabs w' = vocabs stale_world.
Proof.
  assert (Forall2 (λ text gram, partial 2 cat_dog_vocab text = Ok gram)
            (preprocessing <$> cat_dog_corpus) [the_cat_sat; the_dog_sat]) as Hall.
  { constructor; [vm_compute; reflexivity|].
    constructor; [vm_compute; reflexivity|constructor]. }
  split; [split_and!; [reflexivity|reflexivity|reflexivity|exact Hall]|].
  apply (local_order_saves_the_sum (config_of "p" 2 2 LocalParallel)
           (cat_dog_locals LocalParallel) 2 stale_world cat_dog_vocab
           (preprocessing <$> cat_dog_corpus) [the_cat_sat; the_dog_sat]);
    [reflexivity|reflexivity|reflexivity|exact Hall].
Defined.

Lemma main_single_order_witness :
  (dask_distributed (config_of "p" 2 2 Sequential) = false ∧
   ngram_range_max (config_of "p" 2 2 Sequential)
   = ngram_range_min (config_of "p" 2 2 Sequential) ∧
   load_or_create_vocabulary (preprocessing <$> cat_dog_corpus)
     (generate_name (config_of "p" 2 2 Sequential)) empty_world
   = (Ok cat_dog_vocab, vocab_world) ∧
   Forall2 (λ text gram,
              partial (ngram_range_min (config_of "p" 2 2 Sequential)) cat_dog_vocab text
              = Ok gram)
     (preprocessing <$> cat_dog_corpus) [the_cat_sat; the_dog_sat]) ∧
  ∃ w', main (config_of "p" 2 2 Sequential) cat_dog_corpus empty_world = (Ok (), w') ∧
        final_model w' (generate_name (config_of "p" 2 2 Sequential))
          (ngram_range_min (config_of "p" 2 2 Sequential))
        = Some (total [the_cat_sat; the_dog_sat]) ∧
        temp w' = ∅ ∧
        vocabs w' !! (generate_name (config_of "p" 2 2 Sequential) +:+ ".vocab")
        = Some cat_dog_vocab.
Proof.
  assert (Forall2 (λ text gram,
                     partial (ngram_range_min (config_of "p" 2 2 Sequential))
                       cat_dog_vocab text = Ok gram)
            (preprocessing <$> cat_dog_corpus) [the_cat_sat; the_dog_sat]) as Hall.
  { constructor; [vm_compute; reflexivity|].
    constructor; [vm_compute; reflexivity|constructor]. }
  split; [split_and!; [reflexivity|reflexivity|vm_compute; reflexivity|exact Hall]|].
  apply (main_single_order (config_of "p" 2 2 Sequential) cat_dog_corpus empty_world
           cat_dog_vocab vocab_world [the_cat_sat; the_dog_sat]);
    [reflexivity|reflexivity|vm_compute; reflexivity|exact Hall].
Defined.

(** ** What merging keeps *)

Lemma mass_of_insert_None (d : NextCounts) (i : nat) (x : Z) :
  d !! i = None → mass_of (<[i := x]> d) = (x + mass_of d)%Z.
Proof.
  intros Hi. unfold mass_of. rewrite map_fold_insert_L; [done| |done].
  intros. lia.
Qed.

Lemma mass_of_insert_Some (d : NextCounts) (i : nat) (c x : Z) :
  d !! i = Some c → mass_of (<[i := x]> d) = (x - c + mass_of d)%Z.
Proof.
  intros Hi. rewrite <- (insert_delete_id d i c Hi) at 2.
  rewrite <- insert_delete_eq.
  rewrite !mass_of_insert_None by apply lookup_delete_eq. lia.
Qed.

Lemma mass_of_merge_sub_step (i : nat) (x : Z) (d : NextCounts) :
  mass_of (merge_sub_step i x d) = (x + mass_of d)%Z.
Proof.
  unfold merge_sub_step. destruct (d !! i) as [c|] eqn:Hi.
  - rewrite (mass_of_insert_Some d i c) by done. lia.
  - by rewrite mass_of_insert_None.
Qed.

Lemma mass_of_merge_sub (d value : NextCounts) :
  mass_of (merge_sub d value) = (mass_of d + mass_of value)%Z.
Proof.
  unfold merge_sub.
  apply (map_fold_weak_ind (λ r m, mass_of r = (mass_of d + mass_of m)%Z)).
  - unfold mass_of at 3. rewrite map_fold_empty. lia.
  - intros i x m r Hi IH.
    rewrite mass_of_merge_sub_step, mass_of_insert_None, IH by done. lia.
Qed.

Lemma mass_insert_None (t : FrequencyTable) (k : list nat) (d : NextCounts) :
  t !! k = None → mass (<[k := d]> t) = (mass_of d + mass t)%Z.
Proof.
  intros Hk. unfold mass. rewrite map_fold_insert_L; [done| |done].
  intros. lia.
Qed.

Lemma mass_insert_Some (t : FrequencyTable) (k : list nat) (d0 d : NextCounts) :
  t !! k = Some d0 → mass (<[k := d]> t) = (mass_of d - mass_of d0 + mass t)%Z.
Proof.
  intros Hk. rewrite <- (insert_delete_id t k d0 Hk) at 2.
  rewrite <- insert_delete_eq.
  rewrite !mass_insert_None by apply lookup_delete_eq. lia.
Qed.

Lemma mass_merge_step (k : list nat) (value : NextCounts) (cf : FrequencyTable) :
  mass (merge_step k value cf) = (mass_of value + mass cf)%Z.
Proof.
  unfold merge_step. destruct (cf !! k) as [d|] eqn:Hk.
  - rewrite (mass_insert_Some cf k d) by done. rewrite mass_of_merge_sub. lia.
  - by rewrite mass_insert_None.
Qed.

Lemma mass_merge_fold (cf1 cf2 : FrequencyTable) :
  mass (map_fold merge_step cf1 cf2) = (mass cf1 + mass cf2)%Z.
Proof.
  apply (map_fold_weak_ind (λ r m, mass r = (mass cf1 + mass m)%Z)).
  - unfold mass at 3. rewrite map_fold_empty. lia.
  - intros k value m r Hk IH.
    rewrite mass_merge_step, mass_insert_None, IH by done. lia.
Qed.

(** X9: merging loses no count and invents none: the sum of all the
    counts of the table [merge_grams] returns is the sum of those of the
    two tables, and the fold of [main] over any list of staged tables
    gives a table whose counts sum to those of the list. *)
Theorem merge_grams_keeps_mass (gram1 gram2 : Ngram) :
  mass (chain_frequency (merge_grams gram1 gram2))
  = (mass (chain_frequency gram1) + mass (chain_frequency gram2))%Z ∧
  ∀ models,
    mass (chain_frequency (foldl merge_grams (Ngram_new None) models))
    = masses models.
Proof.
  split; [apply mass_merge_fold|].
  assert (∀ models g,
    mass (chain_frequency (foldl merge_grams g models))
    = (mass (chain_frequency g) + masses models)%Z) as Hfold.
  { induction models as [|m models IH]; intros g; cbn [foldl masses foldr].
    - lia.
    - fold (masses models). rewrite IH.
      change (chain_frequency (merge_grams g m))
        with (map_fold merge_step (chain_frequency g) (chain_frequency m)).
      rewrite mass_merge_fold. lia. }
  intros models. rewrite Hfold. cbn [Ngram_new chain_frequency].
  unfold mass at 1. rewrite map_fold_empty. lia.
Qed.

Lemma nonneg_lookup (t : FrequencyTable) :
  nonneg t ↔ ∀ key sub_key, (0 ≤ count t key sub_key)%Z.
Proof.
  unfold nonneg, count. split.
  - intros Hall key sub_key.
    destruct (t !! key) as [d|] eqn:Hk; simpl; [|lia].
    destruct (d !! sub_key) as [c|] eqn:Hs; simpl; [|lia].
    exact (Hall key d Hk sub_key c Hs).
  - intros Hall key d Hk sub_key c Hs.
    specialize (Hall key sub_key). by rewrite Hk in Hall; simpl in Hall; rewrite Hs in Hall.
Qed.

(** X10: on tables without negative counts [merge_grams] never lowers a
    count of its first argument, and the table it returns has no
    negative count either. *)
Theorem merge_grams_monotone (gram1 gram2 : Ngram) :
  nonneg (chain_frequency gram1) → nonneg (chain_frequency gram2) →
  nonneg (chain_frequency (merge_grams gram1 gram2)) ∧
  ∀ key sub_key,
    (count (chain_frequency gram1) key sub_key
     ≤ count (chain_frequency (merge_grams gram1 gram2)) key sub_key)%Z.
Proof.
  rewrite !nonneg_lookup. intros H1 H2.
  split; intros key sub_key; rewrite merge_grams_merge, count_merge;
    specialize (H1 key sub_key); specialize (H2 key sub_key); lia.
Qed.

Lemma merge_grams_monotone_witness :
  (nonneg (chain_frequency table_a) ∧ nonneg (chain_frequency table_b)) ∧
  nonneg (chain_frequency (merge_grams table_a table_b)) ∧
  ∀ key sub_key,
    (count (chain_frequency table_a) key sub_key
     ≤ count (chain_frequency (merge_grams table_a table_b)) key sub_key)%Z.
Proof.
  assert (nonneg (chain_frequency table_a)) as Ha
    by (unfold nonneg; apply (bool_decide_unpack _); vm_compute; exact I).
  assert (nonneg (chain_frequency table_b)) as Hb
    by (unfold nonneg; apply (bool_decide_unpack _); vm_compute; exact I).
  split; [by split|].
  apply (merge_grams_monotone table_a table_b); assumption.
Defined.

(** ** The rounds of [merge_models_incrementally] *)

Lemma pairs_length_div2 (models : list Ngram) :
  length (pairs models) = Nat.div2 (S (length models)).
Proof.
  induction models as [|model|model1 model2 rest IH] using pairs_ind; [done..|].
  cbn [pairs length]. rewrite IH. reflexivity.
Qed.

(** X11: a round of the [while] loop never fails, whatever the length of
    the list: it merges the tables two by two from the left, passes an
    unpaired last table on unchanged, and leaves half as many tables,
    rounded up. *)
Theorem pair_round_halves (models : list Ngram) :
  pair_round models = Ok (pairs models) ∧
  length (pairs models) = Nat.div2 (S (length models)) ∧
  (∀ model1 model2 rest,
     pairs (model1 :: model2 :: rest) = merge_grams model1 model2 :: pairs rest) ∧
  (∀ model, pairs [model] = [model]).
Proof.
  split_and!; [apply pair_round_pairs|apply pairs_length_div2|done..].
Qed.

Lemma merge_models_incrementally_nil :
  merge_models_incrementally [] = Raise IndexError.
Proof. reflexivity. Qed.

(** X12: [merge_models_incrementally] fails on the empty list only, with
    [IndexError] from [models_to_merge[0]]; a list of one table is
    returned as it is, without a merge. *)
Theorem merge_models_incrementally_fails_on_empty (models : list Ngram) :
  match merge_models_incrementally models with
  | Ok _ => models ≠ []
  | Raise e => e = IndexError ∧ models = []
  end ∧
  ∀ model, merge_models_incrementally [model] = Ok model.
Proof.
  split; [|done].
  destruct models as [|model models]; [by rewrite merge_models_incrementally_nil|].
  destruct (merge_models_incrementally_total (model :: models)) as (g & -> & _); done.
Qed.

(** X23: the tree reduction does not depend on the order of the list:
    on two lists with the same tables it fails on both (when they are
    empty) or returns tables with the same contents. *)
Theorem merge_models_incrementally_order (models models' : list Ngram) :
  models ≡ₚ models' →
  match merge_models_incrementally models, merge_models_incrementally models' with
  | Ok g, Ok g' => chain_frequency g = chain_frequency g'
  | Raise e, Raise e' => e = e' ∧ models = [] ∧ models' = []
  | _, _ => False
  end.
Proof.
  intros Hp. destruct models as [|m models].
  - apply Permutation_nil in Hp as ->.
    by rewrite merge_models_incrementally_nil.
  - destruct models' as [|m' models'].
    { by apply Permutation_nil_r in Hp. }
    destruct (merge_models_incrementally_total (m :: models)) as (g & -> & Hg); [done|].
    destruct (merge_models_incrementally_total (m' :: models')) as (g' & -> & Hg'); [done|].
    rewrite Hg, Hg'. by apply total_Permutation.
Qed.

Lemma merge_models_incrementally_order_witness :
  [table_a; table_b; table_a] ≡ₚ [table_b; table_a; table_a] ∧
  match merge_models_incrementally [table_a; table_b; table_a],
        merge_models_incrementally [table_b; table_a; table_a] with
  | Ok g, Ok g' => chain_frequency g = chain_frequency g'
  | Raise e, Raise e' =>
      e = e' ∧ [table_a; table_b; table_a] = [] ∧ [table_b; table_a; table_a] = []
  | _, _ => False
  end.
Proof.
  assert ([table_a; table_b; table_a] ≡ₚ [table_b; table_a; table_a]) as Hp
    by apply perm_swap.
  split; [exact Hp|].
  apply (merge_models_incrementally_order _ _ Hp).
Defined.

(** ** The objects after a merge in place *)

(** A check of [InPlace.unshared] that can be run on a store. *)
Lemma inplace_unshared_check (h : InPlace.Heap) (gram1 gram2 : nat) :
  map_Forall (λ k a, map_Forall (λ k' a', a = a' → k = k') (InPlace.table_at h gram1))
    (InPlace.table_at h gram1) →
  map_Forall (λ k a, map_Forall (λ k' a', a = a' → k = k') (InPlace.table_at h gram2))
    (InPlace.table_at h gram1) →
  InPlace.unshared h gram1 gram2.
Proof.
  intros H1 H2. split; intros k k' a Hk Hk'.
  - exact (H1 k a Hk k' a Hk' eq_refl).
  - exact (H2 k a Hk k' a Hk' eq_refl).
Qed.

Lemma inplace_merge_grams_keeps (h : InPlace.Heap) (gram1 gram2 g : nat) :
  InPlace.unshared h gram1 gram2 →
  g ≠ gram1 → InPlace.footprint h g ## InPlace.footprint h gram1 →
  InPlace.content (InPlace.merge_grams h gram1 gram2).2 g = InPlace.content h g.
Proof.
  intros Hun Hne Hdisj.
  destruct (inplace_merge_grams_frame h gram1 gram2 Hun) as (_ & Hother & Hd).
  apply inplace_content_ext; [by apply Hother|].
  intros a Ha. apply Hd. intros Ha1. by apply (disjoint_elem _ _ a Hdisj).
Qed.

(** X13: run on the objects themselves, [merge_grams] returns its first
    argument, and an object other than the first argument that shares no
    inner dictionary with it has the same contents after the call: this
    holds for the second argument too. *)
Theorem inplace_merge_grams_bystanders (h : InPlace.Heap) (gram1 gram2 : nat) :
  InPlace.unshared h gram1 gram2 →
  (InPlace.merge_grams h gram1 gram2).1 = gram1 ∧
  ∀ g, g ≠ gram1 → InPlace.footprint h g ## InPlace.footprint h gram1 →
       InPlace.content (InPlace.merge_grams h gram1 gram2).2 g = InPlace.content h g.
Proof.
  intros Hun. split; [done|]. intros g. by apply inplace_merge_grams_keeps.
Qed.

Lemma inplace_merge_grams_bystanders_witness :
  InPlace.unshared example_heap 0 1 ∧
  (InPlace.merge_grams example_heap 0 1).1 = 0 ∧
  ∀ g, g ≠ 0 → InPlace.footprint example_heap g ## InPlace.footprint example_heap 0 →
       InPlace.content (InPlace.merge_grams example_heap 0 1).2 g
       = InPlace.content example_heap g.
Proof.
  assert (InPlace.unshared example_heap 0 1) as Hun.
  { apply inplace_unshared_check; apply (bool_decide_unpack _); vm_compute; exact I. }
  split; [exact Hun|].
  apply (inplace_merge_grams_bystanders example_heap 0 1). exact Hun.
Defined.

(** X14: for a context the first argument lacks, [merge_grams] stores in
    it the inner dictionary of the second argument itself, not a copy:
    the two objects then hold the same dictionary under that context,
    and a later merge of a third object into the first is seen in the
    contents of the second, which receives the counts of the third. *)
Theorem inplace_merge_grams_shares (h : InPlace.Heap) (gram1 gram2 gram3 : nat)
    (key : list nat) (a b : nat) :
  InPlace.unshared h gram1 gram2 → gram1 ≠ gram2 →
  InPlace.table_at h gram1 !! key = None →
  InPlace.table_at h gram2 !! key = Some a →
  InPlace.unshared (InPlace.merge_grams h gram1 gram2).2 gram1 gram3 →
  InPlace.table_at (InPlace.merge_grams h gram1 gram2).2 gram3 !! key = Some b →
  InPlace.table_at (InPlace.merge_grams h gram1 gram2).2 gram1 !! key = Some a ∧
  InPlace.table_at (InPlace.merge_grams h gram1 gram2).2 gram2 !! key = Some a ∧
  InPlace.content
    (InPlace.merge_grams (InPlace.merge_grams h gram1 gram2).2 gram1 gram3).2 gram2
    !! key
  = Some (sum_counts (InPlace.dict_at (InPlace.merge_grams h gram1 gram2).2 a)
                     (InPlace.dict_at (InPlace.merge_grams h gram1 gram2).2 b)).
Proof.
  intros Hun Hne H1 H2 Hun' H3.
  destruct (inplace_merge_grams_frame h gram1 gram2 Hun) as (Ht & Hother & _).
  assert (InPlace.table_at (InPlace.merge_grams h gram1 gram2).2 gram1 !! key = Some a)
    as Hk1.
  { rewrite Ht. rewrite lookup_union_r by done. done. }
  assert (InPlace.table_at (InPlace.merge_grams h gram1 gram2).2 gram2 !! key = Some a)
    as Hk2.
  { rewrite Hother by done. done. }
  split_and!; [done..|].
  set (h1 := (InPlace.merge_grams h gram1 gram2).2) in *.
  destruct Hun' as [Hinj Hsh].
  destruct (inplace_outer_loop h1 gram1 (InPlace.table_at h1 gram3) Hinj Hsh)
    as (_ & Hmod & _ & Hother').
  unfold InPlace.content. rewrite lookup_fmap.
  change (InPlace.merge_grams h1 gram1 gram3).2
    with (map_fold (InPlace.merge_step gram1) h1 (InPlace.table_at h1 gram3)).
  rewrite Hother' by done. rewrite Hk2. simpl. f_equal.
  by apply (Hmod key).
Qed.

Lemma inplace_merge_grams_shares_witness :
  (InPlace.unshared example_heap 2 1 ∧ 2 ≠ 1 ∧
   InPlace.table_at example_heap 2 !! [0] = None ∧
   InPlace.table_at example_heap 1 !! [0] = Some 11 ∧
   InPlace.unshared (InPlace.merge_grams example_heap 2 1).2 2 0 ∧
   InPlace.table_at (InPlace.merge_grams example_heap 2 1).2 0 !! [0] = Some 10) ∧
  InPlace.table_at (InPlace.merge_grams example_heap 2 1).2 2 !! [0] = Some 11 ∧
  InPlace.table_at (InPlace.merge_grams example_heap 2 1).2 1 !! [0] = Some 11 ∧
  InPlace.content
    (InPlace.merge_grams (InPlace.merge_grams example_heap 2 1).2 2 0).2 1 !! [0]
  = Some (sum_counts (InPlace.dict_at (InPlace.merge_grams example_heap 2 1).2 11)
                     (InPlace.dict_at (InPlace.merge_grams example_heap 2 1).2 10)).
Proof.
  assert (InPlace.unshared example_heap 2 1) as Hun.
  { apply inplace_unshared_check; apply (bool_decide_unpack _); vm_compute; exact I. }
  assert (InPlace.unshared (InPlace.merge_grams example_heap 2 1).2 2 0) as Hun'.
  { apply inplace_unshared_check; apply (bool_decide_unpack _); vm_compute; exact I. }
  split; [split_and!; [exact Hun|lia|by vm_compute|by vm_compute|exact Hun'|by vm_compute]|].
  apply (inplace_merge_grams_shares example_heap 2 1 0 [0] 11 10);
    [exact Hun|lia|by vm_compute|by vm_compute|exact Hun'|by vm_compute].
Defined.

Lemma inplace_pairs_head (h : InPlace.Heap) (models : list nat) :
  head (InPlace.pairs h models).1 = head models.
Proof.
  destruct models as [|model1 [|model2 rest]]; [done..|].
  by rewrite InPlace.inplace_pairs_cons.
Qed.

(** X15: run on the objects themselves, [merge_models_incrementally]
    returns the first object of the list, into which the rounds have
    merged; it fails on the empty list only, with [IndexError]. *)
Theorem inplace_merge_models_incrementally_first (h : InPlace.Heap) (models : list nat) :
  match InPlace.merge_models_incrementally h models with
  | Ok (g, _) => head models = Some g
  | Raise e => e = IndexError ∧ models = []
  end.
Proof.
  funelim (InPlace.merge_models_incrementally h models);
    try match goal with
    | Hr : InPlace.pair_round _ _ = Raise _ |- _ =>
        exfalso; pose proof Hr as Hr';
        rewrite InPlace.inplace_pair_round_pairs in Hr'; discriminate Hr'
    | Hr : InPlace.pair_round ?h ?l = Ok ?new |- _ =>
        assert (new = InPlace.pairs h l) as Hnew
          by (pose proof Hr as Hr';
              rewrite InPlace.inplace_pair_round_pairs in Hr';
              by injection Hr')
    end.
  - destruct models_to_merge as [|g [|? ?]]; [done..|].
    exfalso.
    match goal with
    | Hb : bool_decide _ = false |- _ =>
        pose proof (bool_decide_eq_false_1 _ Hb) as Hlen
    end.
    simpl in Hlen. lia.
  - pose proof (bool_decide_eq_true_1 _ Hlen) as Hlong.
    assert (head new_models = head models_to_merge) as Hhead.
    { replace new_models with (InPlace.pairs h models_to_merge).1
        by by rewrite <- Hnew.
      apply inplace_pairs_head. }
    destruct (InPlace.merge_models_incrementally h' new_models) as [[g h'']|e0].
    + by rewrite <- Hhead.
    + exfalso. destruct H as [_ ->].
      destruct models_to_merge as [|? [|? ?]]; [simpl in Hlong; lia..|].
      discriminate Hhead.
Qed.

(** ** [preprocessing], once more *)

Lemma isspace_newline : isspace newline = true.
Proof. reflexivity. Qed.

Lemma replace_newline_not_space (c : N) :
  isspace c = false → (if (c =? newline)%N then space else c) = c.
Proof.
  intros Hc. destruct (N.eqb_spec c newline) as [->|_]; [|done].
  by rewrite isspace_newline in Hc.
Qed.

Lemma isspace_replace_newline (c : N) :
  isspace (if (c =? newline)%N then space else c) = isspace c.
Proof. by destruct (N.eqb_spec c newline) as [->|_]. Qed.

Lemma lstrip_id (s : pystr) : no_leading_space s → lstrip s = s.
Proof.
  destruct s as [|c s]; [done|]. intros Hs. simpl.
  by rewrite (Hs c eq_refl).
Qed.

Lemma rstrip_id (s : pystr) : no_trailing_space s → rstrip s = s.
Proof.
  intros Hs. unfold rstrip. rewrite lstrip_id; [apply reverse_involutive|].
  intros c. rewrite head_reverse. apply Hs.
Qed.

Lemma strip_id (s : pystr) :
  no_leading_space s → no_trailing_space s → strip s = s.
Proof. intros Hl Hr. unfold strip. by rewrite lstrip_id, rstrip_id. Qed.

Lemma lstrip_all_space (s : pystr) : all_space s → lstrip s = [].
Proof. induction 1 as [|c s Hc _ IH]; [done|]. simpl. by rewrite Hc. Qed.

Lemma replace_no_leading_space (s : pystr) :
  no_leading_space s → no_leading_space (replace newline space s).
Proof.
  destruct s as [|c s]; [by intros _ c|]. intros Hs c' [= <-].
  rewrite isspace_replace_newline. by apply Hs.
Qed.

Lemma replace_no_trailing_space (s : pystr) :
  no_trailing_space s → no_trailing_space (replace newline space s).
Proof.
  intros Hs c'. unfold replace. rewrite fmap_last.
  destruct (last s) as [c|] eqn:Hlast; simpl; [|done]. intros [= <-].
  rewrite isspace_replace_newline. by apply Hs.
Qed.

Lemma replace_replace (s : pystr) :
  replace newline space (replace newline space s) = replace newline space s.
Proof.
  unfold replace. rewrite <- list_fmap_compose. apply list_fmap_ext.
  intros _ c _. unfold compose.
  destruct (c =? newline)%N eqn:Hc; [done|by rewrite Hc].
Qed.

Lemma preprocessing_no_space_ends (text : pystr) :
  no_leading_space (preprocessing text) ∧ no_trailing_space (preprocessing text).
Proof.
  destruct (strip_split text) as (l & r & _ & _ & _ & Hl & Hr).
  rewrite preprocessing_unfold.
  split; [by apply replace_no_leading_space|by apply replace_no_trailing_space].
Qed.

(** X16: [preprocessing] is idempotent; what it returns holds no newline
    and neither starts nor ends with whitespace; a text of whitespace
    only becomes the empty string. *)
Theorem preprocessing_idempotent (text : pystr) :
  preprocessing (preprocessing text) = preprocessing text ∧
  (newline ∉ preprocessing text) ∧
  no_leading_space (preprocessing text) ∧
  no_trailing_space (preprocessing text) ∧
  (all_space text → preprocessing text = []).
Proof.
  destruct (preprocessing_no_space_ends text) as [Hl Hr].
  split_and!; [|  |done|done|].
  - rewrite (preprocessing_unfold (preprocessing text)).
    rewrite strip_id by done.
    rewrite preprocessing_unfold. apply replace_replace.
  - rewrite preprocessing_unfold. unfold replace.
    intros (c & Hc & _)%list_elem_of_fmap.
    destruct (c =? newline)%N eqn:Heq; [done|].
    apply N.eqb_neq in Heq. by apply Heq.
  - intros Hall. rewrite preprocessing_unfold. unfold strip.
    by rewrite lstrip_all_space.
Qed.

Lemma split_from_replace (word s : pystr) :
  split_from word (replace newline space s) = split_from word s.
Proof.
  revert word. induction s as [|c s IH]; intros word; [done|].
  unfold replace. rewrite fmap_cons. fold (replace newline space s).
  cbn [split_from]. rewrite isspace_replace_newline.
  destruct (isspace c) eqn:Hc.
  - by rewrite IH.
  - by rewrite replace_newline_not_space, IH.
Qed.

Lemma split_lstrip (s : pystr) : split (lstrip s) = split s.
Proof.
  unfold split. induction s as [|c s IH]; [done|].
  cbn [lstrip split_from]. destruct (isspace c) eqn:Hc; [exact IH|].
  cbn [split_from]. by rewrite Hc.
Qed.

Lemma split_from_all_space (word r : pystr) :
  all_space r → split_from word r = split_from word [].
Proof.
  intros Hall. revert word.
  induction Hall as [|c r Hc _ IH]; intros word; [done|].
  cbn [split_from]. rewrite Hc, (IH []). by destruct word.
Qed.

Lemma split_from_app_space (word s r : pystr) :
  all_space r → split_from word (s ++ r) = split_from word s.
Proof.
  intros Hall. revert word. induction s as [|c s IH]; intros word.
  - by apply split_from_all_space.
  - cbn [app split_from]. by rewrite !IH.
Qed.

Lemma split_strip (s : pystr) : split (strip s) = split s.
Proof.
  rewrite <- (split_lstrip s).
  destruct (rstrip_split (lstrip s)) as (r & Hs & Hr & _).
  unfold strip, split. rewrite Hs at 2. by rewrite split_from_app_space.
Qed.

(** X17: [split] gives the same tokens on the preprocessed text as on
    the text itself: preprocessing changes nothing for a tokenizer that
    splits on whitespace. *)
Theorem preprocessing_keeps_tokens (text : pystr) :
  split (preprocessing text) = split text.
Proof.
  rewrite preprocessing_unfold. unfold split at 1.
  rewrite split_from_replace. apply split_strip.
Qed.

(** ** [load_data] *)

Section loading_properties.
Context {Float DataFrame : Type}.
Variable read_csv : json Float → json Float → result DataFrame.
Variable column_to_list : DataFrame → json Float → result (list (json Float)).
Variable glob : pystr → list pystr.
Variable read_file : pystr → result pystr.

Abbreviation load := (load_data read_csv column_to_list glob read_file).

Lemma subscript_raises (v : json Float) (key : pystr) (e : exn) :
  subscript v key = Raise e → is_Exception e = true.
Proof.
  destruct v as [| | | | |l|d]; simpl; try by intros [= <-].
  destruct (items_lookup key d); [done|]. by intros [= <-].
Qed.

Lemma load_data_handler_bound {A} (path : json Float) (e : exn) :
  load_data_handler (A := A) (Some path) e
  = Raise (if is_Exception e then SystemExit 1 else e).
Proof. unfold load_data_handler. by destruct (is_Exception e). Qed.

(** X18: when [parameters] has no key [source] (or is not a [dict]),
    [load_data] does not end the process with status 1: the handler
    formats [path], which was never bound, and [UnboundLocalError]
    escapes from it. *)
Theorem load_data_missing_source (parameters : json Float) (e : exn) :
  subscript parameters (lit "source") = Raise e →
  load parameters = Raise (UnboundLocalError "path").
Proof.
  intros Hsource. unfold load_data. rewrite Hsource.
  unfold load_data_handler. by rewrite (subscript_raises _ _ _ Hsource).
Qed.


(** X20: a [data_type] that is neither [df] nor [files], or no key
    [data_type] at all, ends the process with status 1: with an unknown
    type no branch binds [data] and [return data] raises inside the
    [try] block. *)
Theorem load_data_unknown_type (parameters path : json Float) :
  subscript parameters (lit "source") = Ok path →
  (∀ data_type, subscript parameters (lit "data_type") = Ok data_type →
     eq_str data_type (lit "df") = false ∧ eq_str data_type (lit "files") = false) →
  load parameters = Raise (SystemExit 1).
Proof.
  intros Hsource Htype. unfold load_data. rewrite Hsource.
  unfold load_data_body.
  destruct (subscript parameters (lit "data_type")) as [data_type|e] eqn:Hdt.
  - destruct (Htype data_type eq_refl) as [Hdf Hfiles].
    cbn -[lit]. rewrite Hdf. cbn -[lit]. rewrite Hfiles. reflexivity.
  - cbn -[lit]. rewrite load_data_handler_bound.
    by rewrite (subscript_raises _ _ _ Hdt).
Qed.


End loading_properties.

Lemma load_data_missing_source_witness :
  subscript (JDict [] : json Z) (lit "source") = Raise KeyError ∧
  load_data no_csv no_column no_file unreadable (JDict []) = Raise (UnboundLocalError "path").
Proof.
  split; [reflexivity|].
  apply (load_data_missing_source no_csv no_column no_file unreadable (JDict []) KeyError).
  reflexivity.
Defined.


Lemma load_data_unknown_type_witness :
  (subscript (JDict [(lit "source", JStr (lit "corpus/"))] : json Z) (lit "source")
   = Ok (JStr (lit "corpus/")) ∧
   ∀ data_type,
     subscript (JDict [(lit "source", JStr (lit "corpus/"))] : json Z) (lit "data_type")
     = Ok data_type →
     eq_str data_type (lit "df") = false ∧ eq_str data_type (lit "files") = false) ∧
  load_data no_csv no_column no_file unreadable
    (JDict [(lit "source", JStr (lit "corpus/"))])
  = Raise (SystemExit 1).
Proof.
  split; [split; [reflexivity|discriminate]|].
  apply (load_data_unknown_type no_csv no_column no_file unreadable
           (JDict [(lit "source", JStr (lit "corpus/"))]) (JStr (lit "corpus/")));
    [reflexivity|discriminate].
Defined.

